(** * A shallow embedding of [yarrow.py]

    The [Yarrow] class of [src/yarrow.py] is embedded method by method:
    byte strings are [list byte], Python integers are [Z], the instance is
    a record, and every method is a function from the instance to an
    [outcome] that returns, raises, or blocks for ever on the instance's
    own (non re-entrant) [threading.Lock].  The readings the methods take
    from the outside world ([time.time()], [os.urandom(32)]) are explicit
    arguments.  [hashlib.sha256] is embedded as the FIPS 180-4 function and
    Python's floats as the kernel's binary64 floats, so that every
    definition below can be evaluated. *)

From Stdlib Require Import ZArith List Bool Lia Permutation Floats.
From Stdlib Require Uint63.
From Stdlib.Strings Require Import Byte.
From Equations Require Import Equations.
Import ListNotations.

#[local] Open Scope Z_scope.

(** ** Byte strings *)

Definition bytes := list byte.

Definition byte_to_Z (b : byte) : Z := Z.of_N (Byte.to_N b).

Definition byte_of_Z (z : Z) : byte :=
  match Byte.of_N (Z.to_N (z mod 256)) with
  | Some b => b
  | None => x00
  end.

(** [len(b)] as a Python integer. *)
Definition len {A : Type} (l : list A) : Z := Z.of_nat (length l).

(** [int.from_bytes(data, byteorder='big')]. *)
Definition int_from_bytes (data : bytes) : Z :=
  fold_left (fun acc b => acc * 256 + byte_to_Z b) data 0.

(** Python slices with one bound, [l[start:]] and [l[:stop]]: a negative
    bound counts from the end and is clamped at the front, a bound past the
    end is clamped at the end.  [-0] is [0], so [l[-0:]] is the whole of
    [l]. *)
Definition slice_from {A : Type} (start : Z) (l : list A) : list A :=
  if start <? 0
  then skipn (length l - Z.to_nat (- start)) l
  else skipn (Z.to_nat start) l.

Definition slice_to {A : Type} (stop : Z) (l : list A) : list A :=
  if stop <? 0
  then firstn (length l - Z.to_nat (- stop)) l
  else firstn (Z.to_nat stop) l.

(** [int.bit_length()]: the number of bits of the absolute value. *)
Definition bit_length (x : Z) : Z :=
  if x =? 0 then 0 else Z.log2 (Z.abs x) + 1.

(** ** [hashlib.sha256] (FIPS 180-4) *)

Module Sha256.

Definition w32 (x : Z) : Z := x mod 2 ^ 32.
Definition add32 (x y : Z) : Z := w32 (x + y).
Definition rotr (n x : Z) : Z :=
  w32 (Z.lor (Z.shiftr x n) (Z.shiftl x (32 - n))).
Definition lnot32 (x : Z) : Z := Z.lxor x 0xffffffff.

Definition Ch (x y z : Z) : Z := Z.lxor (Z.land x y) (Z.land (lnot32 x) z).
Definition Maj (x y z : Z) : Z :=
  Z.lxor (Z.lxor (Z.land x y) (Z.land x z)) (Z.land y z).
Definition Sigma0 (x : Z) : Z :=
  Z.lxor (Z.lxor (rotr 2 x) (rotr 13 x)) (rotr 22 x).
Definition Sigma1 (x : Z) : Z :=
  Z.lxor (Z.lxor (rotr 6 x) (rotr 11 x)) (rotr 25 x).
Definition sigma0 (x : Z) : Z :=
  Z.lxor (Z.lxor (rotr 7 x) (rotr 18 x)) (Z.shiftr x 3).
Definition sigma1 (x : Z) : Z :=
  Z.lxor (Z.lxor (rotr 17 x) (rotr 19 x)) (Z.shiftr x 10).

(** The constants are the first 32 bits of the fractional parts of the
    cube roots (for [K]) and of the square roots (for [H0]) of the first
    primes.  [iroot e n] is the integer [e]-th root of [n < 2 ^ (40 * e)],
    found bit by bit from the top. *)
Fixpoint root_bits (k : nat) (e n x : Z) : Z :=
  match k with
  | O => x
  | S k' =>
      let y := x + 2 ^ Z.of_nat k' in
      root_bits k' e n (if y ^ e <=? n then y else x)
  end.

Definition iroot (e n : Z) : Z := root_bits 40 e n 0.

Definition is_prime (n : Z) : bool :=
  forallb (fun d => negb (n mod d =? 0))
          (filter (fun d => d * d <=? n) (map Z.of_nat (seq 2 20))).

Definition primes (count : nat) : list Z :=
  firstn count (filter is_prime (map Z.of_nat (seq 2 400))).

Definition root_fraction (e p : Z) : Z := w32 (iroot e (p * 2 ^ (32 * e))).

Definition K : list Z :=
  Eval vm_compute in map (root_fraction 3) (primes 64).

(** The eight working words. *)
Record regs := Regs { ra : Z; rb : Z; rc : Z; rd : Z;
                      re : Z; rf : Z; rg : Z; rh : Z }.

Definition regs_of_list (l : list Z) : regs :=
  Regs (nth 0 l 0) (nth 1 l 0) (nth 2 l 0) (nth 3 l 0)
       (nth 4 l 0) (nth 5 l 0) (nth 6 l 0) (nth 7 l 0).

Definition H0 : regs :=
  Eval vm_compute in regs_of_list (map (root_fraction 2) (primes 8)).

(** The [n] low bytes of [z], most significant first. *)
Definition z_to_bytes_be (n : nat) (z : Z) : bytes :=
  map (fun i => byte_of_Z (Z.shiftr z (8 * Z.of_nat i))) (rev (seq 0 n)).

(** Padding: a [0x80] byte, zero bytes up to 56 modulo 64, and the bit
    length of the message on eight bytes. *)
Definition pad (msg : bytes) : bytes :=
  msg ++ x80 :: repeat x00 (Z.to_nat ((55 - len msg) mod 64))
      ++ z_to_bytes_be 8 (8 * len msg).

(** The message schedule is built most recent word first:
    [w_i = sigma1 w_(i-2) + w_(i-7) + sigma0 w_(i-15) + w_(i-16)]. *)
Fixpoint words_be (n : nat) (l : bytes) : list Z :=
  match n with
  | O => []
  | S n' => int_from_bytes (firstn 4 l) :: words_be n' (skipn 4 l)
  end.

Fixpoint extend (n : nat) (rw : list Z) : list Z :=
  match n with
  | O => rw
  | S n' =>
      let w := add32 (add32 (sigma1 (nth 1 rw 0)) (nth 6 rw 0))
                     (add32 (sigma0 (nth 14 rw 0)) (nth 15 rw 0)) in
      extend n' (w :: rw)
  end.

Definition schedule (block : bytes) : list Z :=
  rev (extend 48 (rev (words_be 16 block))).

Definition round (r : regs) (kw : Z * Z) : regs :=
  let t1 := add32 (add32 (add32 (rh r) (Sigma1 (re r)))
                         (add32 (Ch (re r) (rf r) (rg r)) (fst kw)))
                  (snd kw) in
  let t2 := add32 (Sigma0 (ra r)) (Maj (ra r) (rb r) (rc r)) in
  Regs (add32 t1 t2) (ra r) (rb r) (rc r)
       (add32 (rd r) t1) (re r) (rf r) (rg r).

Definition compress (h : regs) (block : bytes) : regs :=
  let r := fold_left round (combine K (schedule block)) h in
  Regs (add32 (ra h) (ra r)) (add32 (rb h) (rb r))
       (add32 (rc h) (rc r)) (add32 (rd h) (rd r))
       (add32 (re h) (re r)) (add32 (rf h) (rf r))
       (add32 (rg h) (rg r)) (add32 (rh h) (rh r)).

Fixpoint blocks (n : nat) (l : bytes) (h : regs) : regs :=
  match n with
  | O => h
  | S n' => blocks n' (skipn 64 l) (compress h (firstn 64 l))
  end.

Definition digest_of (h : regs) : bytes :=
  z_to_bytes_be 4 (ra h) ++ z_to_bytes_be 4 (rb h) ++
  z_to_bytes_be 4 (rc h) ++ z_to_bytes_be 4 (rd h) ++
  z_to_bytes_be 4 (re h) ++ z_to_bytes_be 4 (rf h) ++
  z_to_bytes_be 4 (rg h) ++ z_to_bytes_be 4 (rh h).

End Sha256.

(** [hashlib.sha256(msg).digest()]. *)
Definition sha256 (msg : bytes) : bytes :=
  let p := Sha256.pad msg in
  Sha256.digest_of (Sha256.blocks (Nat.div (length p) 64) p Sha256.H0).

(** ** The generator *)

(** An instance of [Yarrow].  [lock] is [true] while [self.lock] is held;
    timestamps ([time.time()]) are whole clock ticks. *)
Record Yarrow := mkYarrow {
  entropy_pool : bytes;
  seed : bytes;
  reseed_interval : Z;
  max_pool_size : Z;
  last_reseed_time : Z;
  lock : bool
}.

Definition set_entropy_pool (p : bytes) (s : Yarrow) : Yarrow :=
  mkYarrow p (seed s) (reseed_interval s) (max_pool_size s)
           (last_reseed_time s) (lock s).
Definition set_seed (d : bytes) (s : Yarrow) : Yarrow :=
  mkYarrow (entropy_pool s) d (reseed_interval s) (max_pool_size s)
           (last_reseed_time s) (lock s).
Definition set_reseed_interval (i : Z) (s : Yarrow) : Yarrow :=
  mkYarrow (entropy_pool s) (seed s) i (max_pool_size s)
           (last_reseed_time s) (lock s).
Definition set_max_pool_size (m : Z) (s : Yarrow) : Yarrow :=
  mkYarrow (entropy_pool s) (seed s) (reseed_interval s) m
           (last_reseed_time s) (lock s).
Definition set_last_reseed_time (t : Z) (s : Yarrow) : Yarrow :=
  mkYarrow (entropy_pool s) (seed s) (reseed_interval s) (max_pool_size s)
           t (lock s).
Definition set_lock (b : bool) (s : Yarrow) : Yarrow :=
  mkYarrow (entropy_pool s) (seed s) (reseed_interval s) (max_pool_size s)
           (last_reseed_time s) b.

(** The one exception the class can raise: the [%] of
    [generate_random_number] with a zero divisor. *)
Inductive exn := ZeroDivisionError.

(** What a call does: it returns a value, it raises, or it waits for ever
    on [self.lock], which [threading.Lock] does when the lock is acquired
    while it is held, also by the thread that holds it. *)
Inductive outcome (A : Type) : Type :=
| Returns (a : A) (s : Yarrow)
| Raises (e : exn) (s : Yarrow)
| Blocks.
Arguments Returns {A} a s.
Arguments Raises {A} e s.
Arguments Blocks {A}.

Definition M (A : Type) : Type := Yarrow -> outcome A.

Definition ret {A : Type} (a : A) : M A := fun s => Returns a s.
Definition raise {A : Type} (e : exn) : M A := fun s => Raises e s.
Definition bind {A B : Type} (c : M A) (k : A -> M B) : M B :=
  fun s => match c s with
           | Returns a s' => k a s'
           | Raises e s' => Raises e s'
           | Blocks => Blocks
           end.
Definition modify (f : Yarrow -> Yarrow) : M unit :=
  fun s => Returns tt (f s).
Definition get {A : Type} (f : Yarrow -> A) : M A :=
  fun s => Returns (f s) s.

Notation "x <- c ;; k" := (bind c (fun x => k))
  (at level 61, c at next level, right associativity).
Notation "c ;;; k" := (bind c (fun _ => k))
  (at level 61, right associativity).

(** [with self.lock: body]: acquire, run the body, release on the way out,
    whether the body returns or raises. *)
Definition with_lock {A : Type} (body : M A) : M A :=
  fun s =>
    if lock s then Blocks
    else match body (set_lock true s) with
         | Returns a s' => Returns a (set_lock false s')
         | Raises e s' => Raises e (set_lock false s')
         | Blocks => Blocks
         end.

(** [Yarrow(reseed_interval, max_pool_size)], constructed at time [now]. *)
Definition init (reseed_interval max_pool_size now : Z) : Yarrow :=
  mkYarrow [] [] reseed_interval max_pool_size now false.

(** The defaults of [__init__]. *)
Definition init_default (now : Z) : Yarrow := init 10000 4096 now.

(** [add_entropy]; the warning printed on empty data is not modelled. *)
Definition add_entropy (data : bytes) : M unit :=
  with_lock
    (match data with
     | _ :: _ =>
         modify (fun s => set_entropy_pool (entropy_pool s ++ data) s) ;;;
         pool <- get entropy_pool ;;
         mps <- get max_pool_size ;;
         if len pool >? mps
         then modify (set_entropy_pool (slice_from (- mps) pool))
         else ret tt
     | [] => ret tt
     end).

(** The stubs, whose body is [pass]. *)
Definition assess_entropy_quality : M unit := ret tt.
Definition authenticate_source : M unit := ret tt.
Definition add_hardware_entropy : M unit := ret tt.
Definition test_integration : M unit := ret tt.

Fixpoint add_entropy_sources (sources : list bytes) : M unit :=
  match sources with
  | [] => ret tt
  | source :: rest => add_entropy source ;;; add_entropy_sources rest
  end.

Definition generate_seed : M unit :=
  with_lock (modify (fun s => set_seed (sha256 (entropy_pool s)) s)).

(** The test of [reseed], read at time [now]. *)
Definition reseed_due (s : Yarrow) (now : Z) : bool :=
  (len (seed s) >=? reseed_interval s)
  || (now - last_reseed_time s >=? reseed_interval s).

(** [reseed]: [now] is the clock read by the test, [stamp] the clock read
    by the assignment to [last_reseed_time]. *)
Definition reseed (now stamp : Z) : M unit :=
  with_lock
    (due <- get (fun s => reseed_due s now) ;;
     if due
     then generate_seed ;;; modify (set_last_reseed_time stamp)
     else ret tt).

(** The readings one generation request takes from the outside world:
    the clock of the reseed test, the clock of the reseed stamp, and the
    32 bytes of [os.urandom(32)]. *)
Record readings := Readings {
  now : Z;
  stamp : Z;
  urandom : bytes
}.

(** The loop of [generate_random_bytes]:
    [while len(random_bytes) < n: prng = sha256(prng); random_bytes.extend(prng)].
    It ends because every digest is 32 bytes long. *)
Equations? keystream (n : Z) (prng random_bytes : bytes) : bytes
  by wf (Z.to_nat (n - len random_bytes)) lt :=
  keystream n prng random_bytes with Z_lt_dec (len random_bytes) n := {
    | left _ =>
        keystream n (sha256 prng) (random_bytes ++ sha256 prng)
    | right _ => random_bytes }.
Proof.
  unfold len, sha256, Sha256.digest_of, Sha256.z_to_bytes_be in *.
  repeat rewrite length_app.
  repeat rewrite length_map, length_rev, length_seq.
  lia.
Qed.

Definition generate_random_bytes (w : readings) (n : Z) : M bytes :=
  reseed (now w) (stamp w) ;;;
  let prng := urandom w in
  let random_bytes := keystream n prng [] in
  ret (slice_to n random_bytes).

(** [add_system_entropy]: [rnd] is [os.urandom(32)] and [clock_text] the
    UTF-8 bytes of [str(time.time())]. *)
Definition add_system_entropy (rnd clock_text : bytes) : M unit :=
  add_entropy rnd ;;; add_entropy clock_text.

(** [add_user_entropy]: [encoded] is [bytes(user_input, 'utf-8')]. *)
Definition add_user_entropy (encoded : bytes) : M unit :=
  add_entropy encoded.

Definition generate_random_number (low high : Z) (w : readings) : M Z :=
  let range_size := high - low + 1 in
  let num_bytes := (bit_length range_size + 7) / 8 in
  random_data <- generate_random_bytes w num_bytes ;;
  let random_number := int_from_bytes random_data in
  if range_size =? 0 then raise ZeroDivisionError
  else ret (low + random_number mod range_size).

(** [configure]: an argument left at [None] changes nothing. *)
Definition configure (reseed_interval max_pool_size : option Z) : M unit :=
  with_lock
    ((match reseed_interval with
      | Some i => modify (set_reseed_interval i)
      | None => ret tt
      end) ;;;
     (match max_pool_size with
      | Some m => modify (set_max_pool_size m)
      | None => ret tt
      end)).

(** ** The chi-squared check *)

(** [data.count(x)] for an integer [x]. *)
Definition count (x : Z) (data : bytes) : Z :=
  len (filter (fun b => byte_to_Z b =? x) data).

(** [range(n)]. *)
Definition range (n : nat) : list Z := map Z.of_nat (seq 0 n).

(** A Python float is an IEEE 754 binary64 number, here the kernel's
    [float] with its correctly rounded operations.  [float_of_int] is the
    conversion of a non-negative integer below [2 ^ 63]; it is exact below
    [2 ^ 53]. *)
Definition float_of_int (z : Z) : float :=
  PrimFloat.of_uint63 (Uint63.of_Z z).

(** The sum of a float64 array as numpy's [add.reduce] computes it
    (pairwise summation): fewer than 8 numbers are added in order; up to
    128 are added in 8 lanes, the lanes combined two by two and the rest
    added in order; more are split near the middle, on a multiple of 8. *)
Fixpoint add_lanes (r chunk : list float) : list float :=
  match r, chunk with
  | a :: r', c :: chunk' => (a + c)%float :: add_lanes r' chunk'
  | _, _ => r
  end.

Fixpoint unrolled (fuel : nat) (r l : list float) : list float * list float :=
  match fuel with
  | O => (r, l)
  | S fuel' =>
      if (8 <=? length l)%nat
      then unrolled fuel' (add_lanes r (firstn 8 l)) (skipn 8 l)
      else (r, l)
  end.

Definition sum_from (res : float) (l : list float) : float :=
  fold_left PrimFloat.add l res.

Definition block_sum (l : list float) : float :=
  if (length l <? 8)%nat then sum_from 0%float l
  else
    let (r, rest) := unrolled (length l) (firstn 8 l) (skipn 8 l) in
    let a (i : nat) := nth i r 0%float in
    sum_from (((a 0%nat + a 1%nat) + (a 2%nat + a 3%nat))
              + ((a 4%nat + a 5%nat) + (a 6%nat + a 7%nat)))%float
             rest.

Fixpoint pairwise_sum (fuel : nat) (l : list float) : float :=
  match fuel with
  | O => block_sum l
  | S fuel' =>
      if (length l <=? 128)%nat then block_sum l
      else
        let n2 := (length l / 2 - (length l / 2) mod 8)%nat in
        (pairwise_sum fuel' (firstn n2 l)
         + pairwise_sum fuel' (skipn n2 l))%float
  end.

Definition np_sum (l : list float) : float := pairwise_sum (length l) l.

(** The statistic of [scipy.stats.chisquare(f_obs, f_exp)]: the observed
    frequencies are converted to float64 and
    [((f_obs - f_exp)**2 / f_exp).sum()] is computed in float64.  An
    expected frequency of zero divides by zero, which gives [nan] or
    [inf]. *)
Definition chisquare (f_obs : list Z) (f_exp : list float) : float :=
  np_sum (map (fun oe =>
                 let d := (float_of_int (fst oe) - snd oe)%float in
                 (d * d / snd oe)%float)
              (combine f_obs f_exp)).

(** [chi_squared_test] reads no field of the instance. *)
Definition chi_squared_test (data : bytes) : float :=
  let observed := map (fun x => count x data) (range 256) in
  let expected := repeat (float_of_int (len data) / 256)%float 256 in
  chisquare observed expected.

(** ** Calls and reachable instances *)

(** The calls a client can make on an instance, with the readings each takes
    from the outside world. *)
Inductive call :=
| AddEntropy (data : bytes)
| AddEntropySources (sources : list bytes)
| AddSystemEntropy (rnd clock_text : bytes)
| AddUserEntropy (encoded : bytes)
| GenerateSeed
| Reseed (now stamp : Z)
| GenerateRandomBytes (w : readings) (n : Z)
| GenerateRandomNumber (low high : Z) (w : readings)
| Configure (reseed_interval max_pool_size : option Z).

(** The instance a call leaves behind when it comes back, by a return or by
    an exception; [None] when it never comes back. *)
Definition after {A : Type} (o : outcome A) : option Yarrow :=
  match o with
  | Returns _ s => Some s
  | Raises _ s => Some s
  | Blocks => None
  end.

Definition exec (c : call) (s : Yarrow) : option Yarrow :=
  match c with
  | AddEntropy data => after (add_entropy data s)
  | AddEntropySources sources => after (add_entropy_sources sources s)
  | AddSystemEntropy rnd clock_text =>
      after (add_system_entropy rnd clock_text s)
  | AddUserEntropy encoded => after (add_user_entropy encoded s)
  | GenerateSeed => after (generate_seed s)
  | Reseed now stamp => after (reseed now stamp s)
  | GenerateRandomBytes w n => after (generate_random_bytes w n s)
  | GenerateRandomNumber low high w =>
      after (generate_random_number low high w s)
  | Configure i m => after (configure i m s)
  end.

(** The instances a client can hold: a freshly constructed one, and the one
    left by a call that came back. *)
Inductive reachable : Yarrow -> Prop :=
| reachable_init (i m now : Z) : reachable (init i m now)
| reachable_exec (c : call) (s s' : Yarrow) :
    reachable s -> exec c s = Some s' -> reachable s'.

(** ** Vocabulary of the properties *)

(** The bytes of a digest as integers. *)
Definition hex (l : bytes) : list Z := map byte_to_Z l.

(** The last [k] bytes of [l], all of [l] when it has fewer. *)
Definition most_recent {A : Type} (k : Z) (l : list A) : list A :=
  skipn (length l - Z.to_nat k) l.

(** The pool [add_entropy] leaves, from the capacity, the pool it found and
    the data it was given. *)
Definition pool_after (mps : Z) (pool data : bytes) : bytes :=
  match data with
  | [] => pool
  | _ :: _ =>
      if len (pool ++ data) >? mps
      then slice_from (- mps) (pool ++ data)
      else pool ++ data
  end.

(** Between calls the lock is free and the seed is empty or one digest. *)
Definition idle (s : Yarrow) : Prop :=
  lock s = false /\ (seed s = [] \/ length (seed s) = 32%nat).

(** An instance on which [generate_seed] was called once. *)
Definition seeded : Yarrow := set_seed (sha256 []) (init_default 0).

(** The readings of a request made 10000 seconds after construction. *)
Definition late : readings := Readings 10000 10000 (repeat x00 32).

(** The readings of a request made right after construction. *)
Definition early : readings := Readings 0 0 (repeat x00 32).

(** The number of bytes [generate_random_number] asks for, and the bytes
    it gets when no reseed is due. *)
Definition num_bytes_for (low high : Z) : Z :=
  (bit_length (high - low + 1) + 7) / 8.

Definition draw (low high : Z) (w : readings) : bytes :=
  slice_to (num_bytes_for low high)
           (keystream (num_bytes_for low high) (urandom w) []).

Definition ten_bytes : bytes :=
  [x30; x31; x32; x33; x34; x35; x36; x37; x38; x39].

(** A default instance whose pool holds ten bytes. *)
Definition holding_ten : Yarrow := set_entropy_pool ten_bytes (init_default 0).

(** The reseed rule as the specification words it, to be compared with
    [reseed_due], the rule of the source: a count of the bytes put into the
    pool since the last reseed against a byte threshold, or the time since
    the last reseed against a time threshold. *)
Definition spec_reseed_due
           (bytes_since_last_reseed elapsed byte_threshold time_threshold : Z)
  : bool :=
  (bytes_since_last_reseed >=? byte_threshold)
  || (elapsed >=? time_threshold).

(** What [generate_random_number] makes of the bytes it drew. *)
Definition reduce (low high : Z) (random_data : bytes) : Z :=
  low + int_from_bytes random_data mod (high - low + 1).

Definition all_bytes : list byte := map byte_of_Z (range 256).

(** Every byte string of length [k], in increasing big-endian order. *)
Fixpoint all_draws (k : nat) : list bytes :=
  match k with
  | O => [[]]
  | S k' => flat_map (fun b => map (cons b) (all_draws k')) all_bytes
  end.

(** The number of draws of [num_bytes] bytes that [generate_random_number]
    turns into [v]. *)
Definition draws_giving (low high v : Z) : Z :=
  len (filter (fun d => reduce low high d =? v)
              (all_draws (Z.to_nat (num_bytes_for low high)))).

(** The readings of a request whose first keystream byte is [0xff]. *)
Definition top_draw : readings := Readings 0 0 (repeat x39 32).

Definition Zsum (l : list Z) : Z := fold_right Z.add 0 l.

(** The instance after a list of calls, if all of them come back. *)
Fixpoint run (cs : list call) (s : Yarrow) : option Yarrow :=
  match cs with
  | [] => Some s
  | c :: cs' =>
      match exec c s with
      | Some s' => run cs' s'
      | None => None
      end
  end.

Definition is_generate_seed (c : call) : bool :=
  match c with GenerateSeed => true | _ => false end.

Definition is_configure (c : call) : bool :=
  match c with Configure _ _ => true | _ => false end.

(** The first [k] digests of the hash chain that starts at [prng]:
    [sha256(prng)], [sha256(sha256(prng))], and so on, end to end. *)
Fixpoint chain (k : nat) (prng : bytes) : bytes :=
  match k with
  | O => []
  | S k' => sha256 prng ++ chain k' (sha256 prng)
  end.

(** The number of digests a request for [n] bytes needs. *)
Definition digests_for (n : Z) : nat := Z.to_nat ((n + 31) / 32).

(** The script under [if __name__ == "__main__"], run at time [t0] with
    the readings [w] of its one generation request; the number it prints
    is returned. *)
Definition example_usage (t0 : Z) (w : readings) : outcome Z :=
  (configure (Some 20000) (Some 8192) ;;;
   random_data <- generate_random_bytes w 128 ;;
   ret (int_from_bytes random_data)) (init_default t0).

(** Contributions, a reconfiguration and two requests, made over a day. *)
Definition a_day : list call :=
  [AddEntropy [x61; x62];
   GenerateRandomBytes (Readings 5 5 (repeat x00 32)) 16;
   Configure (Some 100000) None;
   AddSystemEntropy (repeat x07 32) [x31; x2e; x35];
   GenerateRandomNumber 1 6 (Readings 86400 86400 (repeat x01 32))].

(** The field [configure] leaves for an argument: the value supplied, or
    the old one for [None]. *)
Definition supplied_or (o : option Z) (v : Z) : Z :=
  match o with Some x => x | None => v end.

(** * Properties *)

(** Splits on a comparison of integers and closes the branch that [lia]
    refutes. *)
Ltac settle c :=
  let E := fresh "E" in
  destruct c eqn:E;
  rewrite ?Z.geb_leb, ?Z.gtb_ltb in E;
  rewrite ?Z.eqb_eq, ?Z.eqb_neq, ?Z.ltb_lt, ?Z.ltb_ge, ?Z.leb_le, ?Z.leb_gt
    in E;
  try lia.

(** ** The hash *)

(** Known answers: the digests of the empty message and of ["abc"]. *)
Example sha256_empty :
  hex (sha256 [])
  = [0xe3; 0xb0; 0xc4; 0x42; 0x98; 0xfc; 0x1c; 0x14;
     0x9a; 0xfb; 0xf4; 0xc8; 0x99; 0x6f; 0xb9; 0x24;
     0x27; 0xae; 0x41; 0xe4; 0x64; 0x9b; 0x93; 0x4c;
     0xa4; 0x95; 0x99; 0x1b; 0x78; 0x52; 0xb8; 0x55].
Proof. vm_compute. reflexivity. Qed.

Example sha256_abc :
  hex (sha256 [x61; x62; x63])
  = [0xba; 0x78; 0x16; 0xbf; 0x8f; 0x01; 0xcf; 0xea;
     0x41; 0x41; 0x40; 0xde; 0x5d; 0xae; 0x22; 0x23;
     0xb0; 0x03; 0x61; 0xa3; 0x96; 0x17; 0x7a; 0x9c;
     0xb4; 0x10; 0xff; 0x61; 0xf2; 0x00; 0x15; 0xad].
Proof. vm_compute. reflexivity. Qed.

(** A message of two blocks: 64 bytes ["a"]. *)
Example sha256_two_blocks :
  firstn 4 (hex (sha256 (repeat x61 64))) = [0xff; 0xe0; 0x54; 0xfe].
Proof. vm_compute. reflexivity. Qed.

(** Every digest has 32 bytes. *)
Lemma z_to_bytes_be_length (n : nat) (z : Z) :
  length (Sha256.z_to_bytes_be n z) = n.
Proof.
  unfold Sha256.z_to_bytes_be.
  now rewrite length_map, length_rev, length_seq.
Qed.

Lemma sha256_length (msg : bytes) : length (sha256 msg) = 32%nat.
Proof.
  unfold sha256, Sha256.digest_of.
  repeat rewrite length_app.
  repeat rewrite z_to_bytes_be_length.
  reflexivity.
Qed.

(** ** The lock *)

Lemma set_lock_release (s : Yarrow) :
  lock s = false -> set_lock false (set_lock true s) = s.
Proof. destruct s; simpl; intros ->; reflexivity. Qed.

Lemma with_lock_held {A : Type} (body : M A) (s : Yarrow) :
  lock s = true -> with_lock body s = Blocks.
Proof. unfold with_lock; intros ->; reflexivity. Qed.

(** Inside [reseed] the lock is held, so the nested [with self.lock] of
    [generate_seed] never gets it. *)
Lemma generate_seed_under_lock (s : Yarrow) :
  generate_seed (set_lock true s) = Blocks.
Proof. reflexivity. Qed.

Lemma reseed_not_due (t t' : Z) (s : Yarrow) :
  lock s = false -> reseed_due s t = false ->
  reseed t t' s = Returns tt s.
Proof.
  intros Hl Hd. unfold reseed, with_lock, bind, get. rewrite Hl.
  replace (reseed_due (set_lock true s) t) with (reseed_due s t)
    by reflexivity.
  rewrite Hd. unfold ret. now rewrite set_lock_release.
Qed.

Lemma reseed_when_due (t t' : Z) (s : Yarrow) :
  reseed_due s t = true -> reseed t t' s = Blocks.
Proof.
  intros Hd. unfold reseed, with_lock, bind, get.
  destruct (lock s); [reflexivity|].
  replace (reseed_due (set_lock true s) t) with (reseed_due s t)
    by reflexivity.
  rewrite Hd. reflexivity.
Qed.

Lemma reseed_due_spec (s : Yarrow) (t : Z) :
  reseed_due s t = true <->
  len (seed s) >= reseed_interval s \/
  t - last_reseed_time s >= reseed_interval s.
Proof.
  unfold reseed_due. rewrite orb_true_iff, !Z.geb_le. lia.
Qed.

(** ** The keystream *)

Lemma keystream_step (n : Z) (prng acc : bytes) :
  keystream n prng acc =
  if len acc <? n
  then keystream n (sha256 prng) (acc ++ sha256 prng)
  else acc.
Proof.
  rewrite keystream_equation_1.
  destruct (Z_lt_dec (len acc) n) as [H|H]; simpl.
  - apply Z.ltb_lt in H. now rewrite H.
  - destruct (len acc <? n) eqn:E; [|reflexivity].
    apply Z.ltb_lt in E. lia.
Qed.

Lemma keystream_covers (n : Z) (prng acc : bytes) :
  n <= len (keystream n prng acc).
Proof.
  funelim (keystream n prng acc); [assumption|lia].
Qed.

(** The loop only appends to the buffer. *)
Lemma keystream_extends (n : Z) (prng acc : bytes) :
  exists tail, keystream n prng acc = acc ++ tail.
Proof.
  funelim (keystream n prng acc).
  - destruct H as [tail Ht]. rewrite Ht.
    exists (sha256 prng ++ tail). now rewrite <- app_assoc.
  - exists []. now rewrite app_nil_r.
Qed.

Lemma slice_to_length {A : Type} (n : Z) (l : list A) :
  0 <= n <= len l -> len (slice_to n l) = n.
Proof.
  unfold slice_to, len. intros H.
  destruct (n <? 0) eqn:E; [apply Z.ltb_lt in E; lia|].
  rewrite length_firstn. lia.
Qed.

(** The generation request when no reseed is due. *)
Lemma generate_random_bytes_not_due (w : readings) (n : Z) (s : Yarrow) :
  lock s = false -> reseed_due s (now w) = false ->
  generate_random_bytes w n s =
  Returns (slice_to n (keystream n (urandom w) [])) s.
Proof.
  intros Hl Hd. unfold generate_random_bytes, bind.
  now rewrite reseed_not_due.
Qed.

(** The generation request when a reseed is due. *)
Lemma generate_random_bytes_due (w : readings) (n : Z) (s : Yarrow) :
  reseed_due s (now w) = true -> generate_random_bytes w n s = Blocks.
Proof.
  intros Hd. unfold generate_random_bytes, bind.
  now rewrite reseed_when_due.
Qed.

Lemma generate_random_bytes_held (w : readings) (n : Z) (s : Yarrow) :
  lock s = true -> generate_random_bytes w n s = Blocks.
Proof.
  intros Hl. unfold generate_random_bytes, bind, reseed.
  now rewrite with_lock_held.
Qed.

Lemma generate_random_bytes_returns_length
  (w : readings) (n : Z) (s : Yarrow) :
  lock s = false -> reseed_due s (now w) = false -> 0 <= n ->
  exists out, generate_random_bytes w n s = Returns out s /\ len out = n.
Proof.
  intros Hl Hd Hn. rewrite generate_random_bytes_not_due by assumption.
  eexists; split; [reflexivity|].
  apply slice_to_length. split; [assumption|apply keystream_covers].
Qed.

(** ** The entropy pool *)

Lemma set_entropy_pool_same (s : Yarrow) :
  set_entropy_pool (entropy_pool s) s = s.
Proof. destruct s; reflexivity. Qed.

Lemma add_entropy_free (data : bytes) (s : Yarrow) :
  lock s = false ->
  add_entropy data s =
  Returns tt (set_entropy_pool
                (pool_after (max_pool_size s) (entropy_pool s) data) s).
Proof.
  intros Hl. unfold add_entropy, with_lock. rewrite Hl.
  destruct data as [|b data]; simpl.
  - unfold ret. now rewrite set_lock_release, set_entropy_pool_same.
  - unfold bind, modify, get; simpl.
    destruct (len (entropy_pool s ++ b :: data) >? max_pool_size s);
      unfold ret; simpl; destruct s; simpl in *; subst; reflexivity.
Qed.

Lemma add_entropy_held (data : bytes) (s : Yarrow) :
  lock s = true -> add_entropy data s = Blocks.
Proof. apply with_lock_held. Qed.

Lemma most_recent_length {A : Type} (k : Z) (l : list A) :
  0 <= k -> len (most_recent k l) = Z.min k (len l).
Proof.
  intros Hk. unfold most_recent, len. rewrite length_skipn. lia.
Qed.

Lemma most_recent_all {A : Type} (k : Z) (l : list A) :
  len l <= k -> most_recent k l = l.
Proof.
  unfold most_recent, len. intros H.
  replace (length l - Z.to_nat k)%nat with 0%nat by lia. reflexivity.
Qed.

Lemma most_recent_app {A : Type} (k : Z) (l d : list A) :
  most_recent k (most_recent k l ++ d) = most_recent k (l ++ d).
Proof.
  unfold most_recent.
  rewrite !length_app, length_skipn.
  destruct (Nat.le_gt_cases (length l) (Z.to_nat k)) as [H|H].
  - replace (length l - Z.to_nat k)%nat with 0%nat by lia.
    simpl. now rewrite Nat.sub_0_r.
  - replace (length l + length d - Z.to_nat k)%nat
      with (length d + (length l - Z.to_nat k))%nat by lia.
    rewrite <- skipn_skipn, (skipn_app (length l - Z.to_nat k) l d).
    replace (length l - Z.to_nat k - length l)%nat with 0%nat by lia.
    simpl. f_equal. lia.
Qed.

(** With a capacity of at least one byte, [add_entropy] keeps the most
    recent [max_pool_size] bytes of the old pool followed by the data. *)
Lemma pool_after_nonempty (mps : Z) (pool data : bytes) :
  1 <= mps -> data <> [] ->
  pool_after mps pool data = most_recent mps (pool ++ data).
Proof.
  intros Hm Hd. unfold pool_after.
  destruct data as [|b data]; [congruence|].
  settle (len (pool ++ b :: data) >? mps).
  - unfold slice_from, most_recent. settle (- mps <? 0).
    now rewrite Z.opp_involutive.
  - symmetry. now apply most_recent_all.
Qed.

Lemma pool_after_most_recent (mps : Z) (pool data : bytes) :
  1 <= mps -> len pool <= mps ->
  pool_after mps pool data = most_recent mps (pool ++ data).
Proof.
  intros Hm Hp. destruct data as [|b data].
  - rewrite app_nil_r. symmetry. now apply most_recent_all.
  - apply pool_after_nonempty; [assumption|discriminate].
Qed.

Lemma set_entropy_pool_twice (p q : bytes) (s : Yarrow) :
  set_entropy_pool q (set_entropy_pool p s) = set_entropy_pool q s.
Proof. reflexivity. Qed.

(** A batch of contributions, on a pool within a capacity of at least one
    byte: the pool becomes the most recent [max_pool_size] bytes of all
    that was ever put in it. *)
Lemma add_entropy_sources_most_recent (sources : list bytes) (s : Yarrow) :
  lock s = false -> 1 <= max_pool_size s ->
  len (entropy_pool s) <= max_pool_size s ->
  add_entropy_sources sources s =
  Returns tt (set_entropy_pool
                (most_recent (max_pool_size s)
                             (entropy_pool s ++ concat sources)) s).
Proof.
  revert s. induction sources as [|d rest IH]; intros s Hl Hm Hp; simpl.
  - rewrite app_nil_r, most_recent_all by assumption.
    unfold ret. now rewrite set_entropy_pool_same.
  - unfold bind. rewrite add_entropy_free by assumption.
    rewrite pool_after_most_recent by assumption.
    rewrite IH; simpl; try assumption.
    + now rewrite most_recent_app, app_assoc.
    + rewrite most_recent_length by lia. lia.
Qed.

(** ** What every call preserves *)

Lemma idle_init (i m t : Z) : idle (init i m t).
Proof. split; [reflexivity|left; reflexivity]. Qed.

Lemma idle_set_entropy_pool (p : bytes) (s : Yarrow) :
  idle s -> idle (set_entropy_pool p s).
Proof. intros H; exact H. Qed.

Lemma add_entropy_idle (data : bytes) (s : Yarrow) :
  idle s -> exists s', add_entropy data s = Returns tt s' /\ idle s'.
Proof.
  intros H. eexists. split.
  - apply add_entropy_free, H.
  - apply idle_set_entropy_pool, H.
Qed.

Lemma add_entropy_sources_idle (sources : list bytes) (s : Yarrow) :
  idle s ->
  exists s', add_entropy_sources sources s = Returns tt s' /\ idle s'.
Proof.
  revert s. induction sources as [|d rest IH]; intros s H; simpl.
  - exists s. split; [reflexivity|assumption].
  - destruct (add_entropy_idle d s H) as [s1 [E1 H1]].
    unfold bind. rewrite E1. apply IH, H1.
Qed.

Lemma generate_seed_free (s : Yarrow) :
  lock s = false ->
  generate_seed s = Returns tt (set_seed (sha256 (entropy_pool s)) s).
Proof.
  intros Hl. unfold generate_seed, with_lock, modify. rewrite Hl.
  destruct s; simpl in *; subst; reflexivity.
Qed.

Lemma configure_free (i m : option Z) (s : Yarrow) :
  lock s = false ->
  configure i m s =
  Returns tt
    (mkYarrow (entropy_pool s) (seed s)
              (match i with Some i' => i' | None => reseed_interval s end)
              (match m with Some m' => m' | None => max_pool_size s end)
              (last_reseed_time s) false).
Proof.
  intros Hl. unfold configure, with_lock. rewrite Hl.
  destruct i, m; reflexivity.
Qed.

Lemma generate_random_bytes_cases (w : readings) (n : Z) (s : Yarrow) :
  lock s = false ->
  generate_random_bytes w n s = Blocks \/
  exists out, generate_random_bytes w n s = Returns out s.
Proof.
  intros Hl. destruct (reseed_due s (now w)) eqn:E.
  - left. now apply generate_random_bytes_due.
  - right. eexists. now apply generate_random_bytes_not_due.
Qed.

Lemma exec_idle (c : call) (s s' : Yarrow) :
  idle s -> exec c s = Some s' -> idle s'.
Proof.
  intros H E. destruct c; simpl in E.
  - destruct (add_entropy_idle data s H) as [s1 [E1 H1]].
    rewrite E1 in E. now inversion E; subst.
  - destruct (add_entropy_sources_idle sources s H) as [s1 [E1 H1]].
    rewrite E1 in E. now inversion E; subst.
  - unfold add_system_entropy, bind in E.
    destruct (add_entropy_idle rnd s H) as [s1 [E1 H1]]. rewrite E1 in E.
    destruct (add_entropy_idle clock_text s1 H1) as [s2 [E2 H2]].
    rewrite E2 in E. now inversion E; subst.
  - unfold add_user_entropy in E.
    destruct (add_entropy_idle encoded s H) as [s1 [E1 H1]].
    rewrite E1 in E. now inversion E; subst.
  - rewrite generate_seed_free in E by apply H. inversion E; subst.
    split; [apply H|]. right. cbn [seed set_seed]. apply sha256_length.
  - destruct (reseed_due s now0) eqn:D.
    + rewrite reseed_when_due in E by assumption. discriminate.
    + rewrite reseed_not_due in E by (assumption || apply H).
      now inversion E; subst.
  - destruct (generate_random_bytes_cases w n s (proj1 H)) as [B|[out R]];
      rewrite ?B, ?R in E; [discriminate|now inversion E; subst].
  - unfold generate_random_number, bind in E.
    destruct (generate_random_bytes_cases
                w ((bit_length (high - low + 1) + 7) / 8) s (proj1 H))
      as [B|[out R]]; rewrite ?B, ?R in E; [discriminate|].
    destruct (high - low + 1 =? 0); simpl in E; now inversion E; subst.
  - rewrite configure_free in E by apply H. inversion E; subst.
    split; [reflexivity|apply H].
Qed.

Lemma reachable_idle (s : Yarrow) : reachable s -> idle s.
Proof.
  induction 1 as [i m t|c s s' _ IH E].
  - apply idle_init.
  - exact (exec_idle c s s' IH E).
Qed.

(** ** The seed and the reseed test (C10) *)

Lemma reachable_seeded : reachable seeded.
Proof.
  apply (reachable_exec GenerateSeed (init_default 0)).
  - apply reachable_init.
  - reflexivity.
Defined.

(** C10. In every reachable instance the seed is the initial empty byte
    string or has exactly 32 bytes, one SHA-256 digest; so when
    [reseed_interval] is above 32 the seed-length comparison of the reseed
    test is false, and the test can only pass by its elapsed-time
    comparison. *)
Theorem seed_is_empty_or_digest (s : Yarrow) :
  reachable s ->
  (seed s = [] \/ len (seed s) = 32) /\
  (32 < reseed_interval s ->
   (len (seed s) >=? reseed_interval s) = false /\
   forall t, reseed_due s t = true ->
             t - last_reseed_time s >= reseed_interval s).
Proof.
  intros R. destruct (reachable_idle s R) as [_ Hs].
  assert (L : len (seed s) = 0 \/ len (seed s) = 32).
  { unfold len. destruct Hs as [-> | ->]; [left|right]; reflexivity. }
  split.
  - destruct Hs as [E|E]; [left; exact E|right]. unfold len. now rewrite E.
  - intros Hi.
    assert (B : (len (seed s) >=? reseed_interval s) = false).
    { rewrite Z.geb_leb. apply Z.leb_gt. lia. }
    split; [exact B|].
    intros t D. unfold reseed_due in D. rewrite B in D. simpl in D.
    rewrite Z.geb_leb in D. apply Z.leb_le in D. lia.
Qed.

Lemma seed_is_empty_or_digest_witness :
  reachable seeded /\ 32 < reseed_interval seeded /\
  (seed seeded = [] \/ len (seed seeded) = 32) /\
  (len (seed seeded) >=? reseed_interval seeded) = false /\
  forall t, reseed_due seeded t = true ->
            t - last_reseed_time seeded >= reseed_interval seeded.
Proof.
  assert (I : 32 < reseed_interval seeded) by (cbn; lia).
  destruct (seed_is_empty_or_digest seeded reachable_seeded) as [L B].
  destruct (B I) as [B1 B2].
  repeat split; try assumption. exact reachable_seeded.
Defined.

(** ** The reseed path never comes back (C6, C7) *)

(** C6. [generate_random_bytes(n)] is to return [n] bytes for every
    [n >= 0]; on a default instance, a request for one byte made 10000
    seconds after construction finds the reseed due, and the nested
    acquisition of [self.lock] in [generate_seed] blocks it for ever. *)
Theorem generate_random_bytes_blocks_when_due :
  reseed_due (init_default 0) (now late) = true /\
  generate_random_bytes late 1 (init_default 0) = Blocks.
Proof. split; reflexivity. Qed.

(** When no reseed is due the request returns exactly [n] bytes. *)
Lemma generate_random_bytes_length (w : readings) (n : Z) (s : Yarrow) :
  reachable s -> reseed_due s (now w) = false -> 0 <= n ->
  exists out, generate_random_bytes w n s = Returns out s /\ len out = n.
Proof.
  intros R. apply generate_random_bytes_returns_length.
  apply (reachable_idle s R).
Qed.

(** The request comes back exactly when no reseed is due. *)
Lemma generate_random_bytes_returns_iff (w : readings) (n : Z) (s : Yarrow) :
  lock s = false ->
  (exists out, generate_random_bytes w n s = Returns out s) <->
  reseed_due s (now w) = false.
Proof.
  intros Hl. split.
  - intros [out E]. destruct (reseed_due s (now w)) eqn:D; [|reflexivity].
    rewrite generate_random_bytes_due in E by assumption. discriminate.
  - intros D. eexists. now apply generate_random_bytes_not_due.
Qed.

(** C7. [generate_random_number(low, high)] with [low <= high] is to return
    a value between the bounds; on a default instance, the request for a
    number from 1 to 6 made 10000 seconds after construction never
    returns. *)
Theorem generate_random_number_blocks_when_due :
  generate_random_number 1 6 late (init_default 0) = Blocks.
Proof. reflexivity. Qed.

(** ** Ranged numbers *)

Lemma byte_to_Z_range (b : byte) : 0 <= byte_to_Z b < 256.
Proof.
  unfold byte_to_Z. pose proof (Byte.to_N_bounded b). lia.
Qed.

Lemma int_from_bytes_acc (data : bytes) (a : Z) :
  fold_left (fun acc b => acc * 256 + byte_to_Z b) data a =
  a * 256 ^ len data + int_from_bytes data.
Proof.
  unfold int_from_bytes, len. revert a.
  induction data as [|b data IH]; intros a.
  - simpl. lia.
  - cbn [fold_left length]. rewrite IH, (IH (0 * 256 + byte_to_Z b)).
    rewrite Nat2Z.inj_succ, Z.pow_succ_r by lia. ring.
Qed.

Lemma int_from_bytes_cons (b : byte) (data : bytes) :
  int_from_bytes (b :: data) =
  byte_to_Z b * 256 ^ len data + int_from_bytes data.
Proof.
  unfold int_from_bytes at 1. cbn [fold_left].
  rewrite int_from_bytes_acc. ring.
Qed.

Lemma int_from_bytes_range (data : bytes) :
  0 <= int_from_bytes data < 256 ^ len data.
Proof.
  induction data as [|b data IH].
  - unfold int_from_bytes, len. simpl. lia.
  - rewrite int_from_bytes_cons.
    replace (len (b :: data)) with (Z.succ (len data))
      by (unfold len; simpl length; lia).
    rewrite Z.pow_succ_r by (unfold len; lia).
    pose proof (byte_to_Z_range b). nia.
Qed.

Lemma generate_random_number_not_due (low high : Z) (w : readings)
      (s : Yarrow) :
  lock s = false -> reseed_due s (now w) = false ->
  generate_random_number low high w s =
  if high - low + 1 =? 0 then Raises ZeroDivisionError s
  else Returns (low + int_from_bytes (draw low high w) mod (high - low + 1)) s.
Proof.
  intros Hl Hd. unfold generate_random_number, bind.
  rewrite generate_random_bytes_not_due by assumption.
  destruct (high - low + 1 =? 0); reflexivity.
Qed.

Lemma generate_random_number_due (low high : Z) (w : readings) (s : Yarrow) :
  reseed_due s (now w) = true ->
  generate_random_number low high w s = Blocks.
Proof.
  intros Hd. unfold generate_random_number, bind.
  now rewrite generate_random_bytes_due.
Qed.

(** When no reseed is due, a request with [low <= high] returns a value
    between the bounds, both included. *)
Lemma generate_random_number_in_range (low high : Z) (w : readings)
      (s : Yarrow) :
  reachable s -> reseed_due s (now w) = false -> low <= high ->
  exists v, generate_random_number low high w s = Returns v s /\
            low <= v <= high.
Proof.
  intros R Hd Hlh.
  rewrite generate_random_number_not_due
    by (assumption || apply (reachable_idle s R)).
  settle (high - low + 1 =? 0).
  eexists. split; [reflexivity|].
  pose proof (Z.mod_pos_bound (int_from_bytes (draw low high w))
                              (high - low + 1)).
  lia.
Qed.

(** ** An inverted range (C5) *)

(** C5, as the code has it: with [high < low] no [InvalidRangeError] is
    raised.  When no reseed is due, [high = low - 1] makes the range size
    zero and the [%] raises [ZeroDivisionError]; a smaller [high] makes it
    negative and the call returns a value [v] with [high + 2 <= v <= low]. *)
Theorem generate_random_number_inverted (low high : Z) (w : readings)
        (s : Yarrow) :
  reachable s -> reseed_due s (now w) = false -> high < low ->
  (high = low - 1 ->
   generate_random_number low high w s = Raises ZeroDivisionError s) /\
  (high < low - 1 ->
   exists v, generate_random_number low high w s = Returns v s /\
             high + 2 <= v <= low).
Proof.
  intros R Hd Hlh.
  rewrite generate_random_number_not_due
    by (assumption || apply (reachable_idle s R)).
  split; intros H.
  - settle (high - low + 1 =? 0). reflexivity.
  - settle (high - low + 1 =? 0).
    eexists. split; [reflexivity|].
    pose proof (Z.mod_neg_bound (int_from_bytes (draw low high w))
                                (high - low + 1)).
    lia.
Qed.

Lemma generate_random_number_inverted_witness :
  reachable (init_default 0) /\ reseed_due (init_default 0) (now early) = false /\
  (exists v, generate_random_number 5 1 early (init_default 0)
             = Returns v (init_default 0) /\ 1 + 2 <= v <= 5).
Proof.
  assert (R : reachable (init_default 0)) by apply reachable_init.
  assert (D : reseed_due (init_default 0) (now early) = false)
    by reflexivity.
  split; [exact R|split; [exact D|]].
  apply (generate_random_number_inverted 5 1 early (init_default 0) R D);
    lia.
Defined.

(** At [(5, 1)] the call returns 5, and at [(1, 0)] it raises
    [ZeroDivisionError]: neither is the rejection of the range the claim
    asks for. *)
Lemma inverted_range_not_rejected :
  generate_random_number 5 1 early (init_default 0)
  = Returns 5 (init_default 0) /\
  generate_random_number 1 0 early (init_default 0)
  = Raises ZeroDivisionError (init_default 0).
Proof. split; vm_compute; reflexivity. Qed.

(** ** The root of the hash chain (C1) *)

(** When no reseed is due the output is a function of the request size and
    of the bytes read from [os.urandom]; the pool and the seed play no
    part in it. *)
Lemma generate_random_bytes_ignores_seed (w : readings) (n : Z)
      (s1 s2 : Yarrow) (out1 out2 : bytes) (s1' s2' : Yarrow) :
  generate_random_bytes w n s1 = Returns out1 s1' ->
  generate_random_bytes w n s2 = Returns out2 s2' ->
  out1 = out2.
Proof.
  unfold generate_random_bytes, bind. intros E1 E2.
  destruct (reseed (now w) (stamp w) s1); try discriminate.
  destruct (reseed (now w) (stamp w) s2); try discriminate.
  unfold ret in *. congruence.
Qed.

(** C1. The output is to be a function of the seed and chain state, never
    rooted in randomness drawn per call.  Two requests for one byte on the
    same instance at the same time, one reading 32 zero bytes from
    [os.urandom] and one reading 32 bytes [0x01], return [0x66] and
    [0x72]; and the instance seeded from its pool returns what the unseeded
    one does. *)
Theorem chain_rooted_in_urandom :
  generate_random_bytes (Readings 0 0 (repeat x00 32)) 1 (init_default 0)
  = Returns [x66] (init_default 0) /\
  generate_random_bytes (Readings 0 0 (repeat x01 32)) 1 (init_default 0)
  = Returns [x72] (init_default 0) /\
  generate_random_bytes (Readings 0 0 (repeat x00 32)) 1 seeded
  = Returns [x66] seeded.
Proof. repeat split; vm_compute; reflexivity. Qed.

(** ** The bound of the pool (C3) *)

(** C3. The pool is never to exceed [max_pool_size]; with a capacity of
    zero, [entropy_pool[-0:]] is the whole pool, and two bytes added to an
    empty pool stay in it. *)
Theorem pool_exceeds_zero_capacity :
  add_entropy [x61; x62] (init 10000 0 0)
  = Returns tt (set_entropy_pool [x61; x62] (init 10000 0 0)) /\
  len [x61; x62] > max_pool_size (init 10000 0 0).
Proof. split; reflexivity. Qed.

(** With a capacity of at least one byte the claim holds: after any
    sequence of contributions to a new instance the pool is the most recent
    [max_pool_size] bytes contributed, never longer than the capacity, and
    full once more than the capacity was contributed. *)
Lemma pool_keeps_most_recent (i m t : Z) (sources : list bytes) :
  1 <= m ->
  exists s',
    add_entropy_sources sources (init i m t) = Returns tt s' /\
    entropy_pool s' = most_recent m (concat sources) /\
    len (entropy_pool s') <= m /\
    (m < len (concat sources) -> len (entropy_pool s') = m).
Proof.
  intros Hm. eexists. split.
  - apply add_entropy_sources_most_recent; simpl; try reflexivity;
      try assumption. unfold len; simpl; lia.
  - cbn [entropy_pool set_entropy_pool init max_pool_size app].
    split; [reflexivity|].
    rewrite most_recent_length by lia. split; lia.
Qed.

Example pool_capacity_four :
  add_entropy_sources [[x61; x62]; [x63; x64; x65; x66]] (init 10000 4 0)
  = Returns tt (set_entropy_pool [x63; x64; x65; x66] (init 10000 4 0)).
Proof. reflexivity. Qed.

(** ** Reconfiguring the capacity (C9) *)

Lemma reachable_holding_ten : reachable holding_ten.
Proof.
  apply (reachable_exec (AddEntropy ten_bytes) (init_default 0)).
  - apply reachable_init.
  - reflexivity.
Defined.

(** After [configure(max_pool_size=2)] the pool still holds its ten bytes,
    not the two most recent ones. *)
Lemma configure_leaves_ten_bytes :
  configure None (Some 2) holding_ten
  = Returns tt (set_max_pool_size 2 holding_ten) /\
  entropy_pool (set_max_pool_size 2 holding_ten) = ten_bytes /\
  entropy_pool (set_max_pool_size 2 holding_ten) <> most_recent 2 ten_bytes.
Proof. repeat split. discriminate. Qed.

(** C9, as the code has it: [configure] records the new [max_pool_size] and
    leaves the pool as it is; the pool is cut to the most recent
    [max_pool_size] bytes by the next [add_entropy] of non-empty data, when
    the new capacity is at least one byte. *)
Theorem configure_keeps_pool (i : option Z) (m : Z) (s : Yarrow) :
  reachable s ->
  exists s',
    configure i (Some m) s = Returns tt s' /\
    entropy_pool s' = entropy_pool s /\
    max_pool_size s' = m /\
    forall data, data <> [] -> 1 <= m ->
      add_entropy data s'
      = Returns tt (set_entropy_pool
                      (most_recent m (entropy_pool s ++ data)) s').
Proof.
  intros R. destruct (reachable_idle s R) as [Hl _].
  eexists. split; [now apply configure_free|].
  split; [reflexivity|]. split; [reflexivity|].
  intros data Hd Hm. rewrite add_entropy_free by reflexivity.
  cbn [max_pool_size entropy_pool].
  now rewrite pool_after_nonempty.
Qed.

Lemma configure_keeps_pool_witness :
  reachable holding_ten /\
  exists s',
    configure None (Some 2) holding_ten = Returns tt s' /\
    entropy_pool s' = entropy_pool holding_ten /\
    max_pool_size s' = 2 /\
    add_entropy [x61] s' = Returns tt (set_entropy_pool [x39; x61] s').
Proof.
  split; [exact reachable_holding_ten|].
  destruct (configure_keeps_pool None 2 holding_ten reachable_holding_ten)
    as [s' [E [P [C A]]]].
  exists s'. repeat split; try assumption.
  apply (A [x61]); [discriminate|lia].
Defined.

(** ** The reseed rule (C2) *)

Lemma reseed_due_set_entropy_pool (p : bytes) (s : Yarrow) (t : Z) :
  reseed_due (set_entropy_pool p s) t = reseed_due s t.
Proof. reflexivity. Qed.

(** On an instance built with [reseed_interval = 10] at time 0, no pair of
    thresholds makes the specification's rule agree with the test of
    [reseed] after every batch of contributions and at every time: the test
    does not look at what went into the pool. *)
Lemma reseed_rule_not_two_thresholds :
  ~ exists byte_threshold time_threshold : Z,
      forall (sources : list bytes) (t : Z) (s : Yarrow),
        add_entropy_sources sources (init 10 4096 0) = Returns tt s ->
        reseed_due s t =
        spec_reseed_due (len (concat sources)) (t - last_reseed_time s)
                        byte_threshold time_threshold.
Proof.
  intros [bt [tt H]].
  assert (Hbt : 0 < bt).
  { specialize (H [] 9 (init 10 4096 0) eq_refl).
    unfold spec_reseed_due in H. cbn in H.
    symmetry in H. apply orb_false_iff in H. destruct H as [H _].
    rewrite Z.geb_leb in H. apply Z.leb_gt in H. exact H. }
  pose (d := repeat x00 (Z.to_nat bt)).
  pose proof (add_entropy_sources_most_recent [d] (init 10 4096 0)
                eq_refl ltac:(cbn; lia) ltac:(cbn; lia)) as E.
  specialize (H [d] 0 _ E).
  rewrite reseed_due_set_entropy_pool in H.
  unfold spec_reseed_due in H.
  replace (len (concat [d])) with bt in H.
  - settle (bt >=? bt). cbn in H. discriminate.
  - unfold len, d. cbn [concat]. rewrite app_nil_r, repeat_length. lia.
Qed.

(** C2, as the code has it: a generation request skips the reseed, and
    goes on with the seed and [last_reseed_time] as they were, exactly when
    the length of the seed and the time since the last reseed are both below
    the one configured value [reseed_interval]; the reseed path is taken
    exactly when one of the two reaches it. *)
Theorem reseed_rule (w : readings) (n : Z) (s : Yarrow) :
  reachable s ->
  (reseed_due s (now w) = true <->
   len (seed s) >= reseed_interval s \/
   now w - last_reseed_time s >= reseed_interval s) /\
  (reseed (now w) (stamp w) s = Returns tt s <->
   reseed_due s (now w) = false) /\
  ((exists out, generate_random_bytes w n s = Returns out s) <->
   len (seed s) < reseed_interval s /\
   now w - last_reseed_time s < reseed_interval s).
Proof.
  intros R. destruct (reachable_idle s R) as [Hl _].
  split; [apply reseed_due_spec|]. split.
  - split.
    + intros E. destruct (reseed_due s (now w)) eqn:D; [|reflexivity].
      rewrite reseed_when_due in E by assumption. discriminate.
    + intros D. now apply reseed_not_due.
  - rewrite generate_random_bytes_returns_iff by assumption.
    rewrite <- not_true_iff_false, reseed_due_spec. lia.
Qed.

Lemma reseed_rule_witness :
  reachable seeded /\
  (reseed_due seeded (now early) = true <->
   len (seed seeded) >= reseed_interval seeded \/
   now early - last_reseed_time seeded >= reseed_interval seeded) /\
  (reseed (now early) (stamp early) seeded = Returns tt seeded <->
   reseed_due seeded (now early) = false) /\
  ((exists out, generate_random_bytes early 1 seeded = Returns out seeded) <->
   len (seed seeded) < reseed_interval seeded /\
   now early - last_reseed_time seeded < reseed_interval seeded).
Proof.
  split.
  - exact reachable_seeded.
  - exact (reseed_rule early 1 seeded reachable_seeded).
Defined.

(** ** Raw modulo reduction (C4) *)

Lemma range_S (n : nat) : range (S n) = range n ++ [Z.of_nat n].
Proof. unfold range. now rewrite seq_S, map_app. Qed.

Lemma range_add (a b : nat) :
  range (a + b) = range a ++ map (fun x => Z.of_nat a + x) (range b).
Proof.
  induction b as [|b IH].
  - rewrite Nat.add_0_r. simpl. now rewrite app_nil_r.
  - rewrite Nat.add_succ_r, !range_S, IH, map_app, app_assoc. simpl.
    do 2 f_equal. lia.
Qed.

Lemma range_blocks (m n : nat) :
  flat_map (fun i => map (fun x => i * Z.of_nat m + x) (range m)) (range n)
  = range (n * m).
Proof.
  induction n as [|n IH]; [reflexivity|].
  rewrite range_S, flat_map_app, IH. simpl. rewrite app_nil_r.
  replace (m + n * m)%nat with (n * m + m)%nat by lia.
  rewrite range_add. f_equal. apply map_ext. intros x. lia.
Qed.

(** Among the integers below [N], the residue [j] modulo [r] is taken by
    [N / r] of them, and by one more when [j < N mod r]. *)
Lemma residue_count (r j : Z) (N : nat) :
  0 < r -> 0 <= j < r ->
  len (filter (fun x => x mod r =? j) (range N))
  = Z.of_nat N / r + (if j <? Z.of_nat N mod r then 1 else 0).
Proof.
  intros Hr Hj. induction N as [|N IH].
  - change (Z.of_nat 0) with 0. rewrite Z.mod_0_l, Z.div_0_l by lia.
    change (len (filter (fun x => x mod r =? j) (range 0))) with 0.
    destruct (j <? 0) eqn:E; [apply Z.ltb_lt in E|]; lia.
  - rewrite range_S, filter_app. unfold len in *.
    rewrite length_app, Nat2Z.inj_add, IH. clear IH.
    rewrite Nat2Z.inj_succ. set (n := Z.of_nat N).
    assert (Hn : 0 <= n) by (unfold n; lia).
    pose proof (Z.div_mod n r ltac:(lia)) as Dn.
    pose proof (Z.mod_pos_bound n r Hr) as Bn.
    cbn [filter].
    destruct (Z.eq_dec (n mod r) (r - 1)) as [Hlast|Hlast].
    + assert (Hq : Z.succ n / r = n / r + 1).
      { symmetry. apply (Z.div_unique _ _ _ 0); lia. }
      assert (Hm : Z.succ n mod r = 0).
      { symmetry. apply (Z.mod_unique _ _ (n / r + 1)); lia. }
      rewrite Hq, Hm.
      settle (j <? 0).
      destruct (n mod r =? j) eqn:E1; destruct (j <? n mod r) eqn:E2;
        rewrite ?Z.eqb_eq, ?Z.eqb_neq, ?Z.ltb_lt, ?Z.ltb_ge in *;
        simpl length; lia.
    + assert (Hq : Z.succ n / r = n / r).
      { symmetry. apply (Z.div_unique _ _ _ (n mod r + 1)); lia. }
      assert (Hm : Z.succ n mod r = n mod r + 1).
      { symmetry. apply (Z.mod_unique _ _ (n / r)); lia. }
      rewrite Hq, Hm.
      destruct (n mod r =? j) eqn:E1; destruct (j <? n mod r) eqn:E2;
        destruct (j <? n mod r + 1) eqn:E3;
        rewrite ?Z.eqb_eq, ?Z.eqb_neq, ?Z.ltb_lt, ?Z.ltb_ge in *;
        simpl length; lia.
Qed.

Lemma byte_to_of_Z (z : Z) : 0 <= z < 256 -> byte_to_Z (byte_of_Z z) = z.
Proof.
  intros Hz. unfold byte_to_Z, byte_of_Z. rewrite Z.mod_small by assumption.
  destruct (Byte.of_N (Z.to_N z)) as [b|] eqn:E.
  - apply Byte.to_of_N in E. rewrite E. lia.
  - apply Byte.of_N_None_iff in E. lia.
Qed.

Lemma in_range (n : nat) (x : Z) : In x (range n) -> 0 <= x < Z.of_nat n.
Proof.
  unfold range. rewrite in_map_iff. intros [i [<- Hi]].
  apply in_seq in Hi. lia.
Qed.

Lemma map_flat_map {A B C : Type} (f : B -> C) (g : A -> list B) (l : list A) :
  map f (flat_map g l) = flat_map (fun x => map f (g x)) l.
Proof.
  induction l as [|a l IH]; [reflexivity|].
  simpl. now rewrite map_app, IH.
Qed.

Lemma flat_map_map {A B C : Type} (g : B -> list C) (h : A -> B) (l : list A) :
  flat_map g (map h l) = flat_map (fun x => g (h x)) l.
Proof.
  induction l as [|a l IH]; [reflexivity|].
  simpl. now rewrite IH.
Qed.

Lemma flat_map_ext_in {A B : Type} (f g : A -> list B) (l : list A) :
  (forall x, In x l -> f x = g x) -> flat_map f l = flat_map g l.
Proof.
  induction l as [|a l IH]; intros H; [reflexivity|].
  simpl. rewrite (H a) by (left; reflexivity).
  rewrite IH; [reflexivity|]. intros x Hx. apply H. now right.
Qed.

Lemma all_draws_length (k : nat) (d : bytes) :
  In d (all_draws k) -> length d = k.
Proof.
  revert d. induction k as [|k IH]; intros d Hd.
  - destruct Hd as [<-|[]]. reflexivity.
  - cbn [all_draws] in Hd. apply in_flat_map in Hd.
    destruct Hd as [b [_ Hd]]. apply in_map_iff in Hd.
    destruct Hd as [d' [<- Hd']]. simpl. f_equal. now apply IH.
Qed.

(** The draws of [k] bytes are read as the integers below [256 ^ k], each
    once. *)
Lemma all_draws_values (k : nat) :
  map int_from_bytes (all_draws k) = range (Z.to_nat (256 ^ Z.of_nat k)).
Proof.
  induction k as [|k IH]; [reflexivity|].
  cbn [all_draws]. unfold all_bytes.
  rewrite map_flat_map, flat_map_map.
  set (m := Z.to_nat (256 ^ Z.of_nat k)) in *.
  assert (Hm : Z.of_nat m = 256 ^ Z.of_nat k) by (unfold m; lia).
  rewrite (flat_map_ext_in _
             (fun i => map (fun x => i * Z.of_nat m + x) (range m))).
  - rewrite range_blocks. f_equal.
    rewrite Nat2Z.inj_succ, Z.pow_succ_r by lia. lia.
  - intros x Hx. apply in_range in Hx.
    rewrite <- IH, !map_map. apply map_ext_in. intros d Hd.
    rewrite int_from_bytes_cons, byte_to_of_Z by lia.
    unfold len. rewrite (all_draws_length k d Hd), Hm. reflexivity.
Qed.

Lemma bit_length_spec (x : Z) : 0 < x -> x < 2 ^ bit_length x.
Proof.
  intros Hx. unfold bit_length.
  settle (x =? 0).
  rewrite Z.abs_eq by lia.
  apply (Z.log2_spec x Hx).
Qed.

(** The bytes drawn cover the range: [range_size <= 256 ^ num_bytes]. *)
Lemma num_bytes_covers (low high : Z) :
  low <= high ->
  0 < num_bytes_for low high /\
  high - low + 1 < 256 ^ num_bytes_for low high.
Proof.
  intros H. unfold num_bytes_for.
  set (r := high - low + 1). assert (Hr : 0 < r) by (unfold r; lia).
  pose proof (bit_length_spec r Hr) as Hb.
  assert (Hl : 0 < bit_length r).
  { unfold bit_length.
    settle (r =? 0).
    pose proof (Z.log2_nonneg (Z.abs r)). lia. }
  set (k := (bit_length r + 7) / 8).
  assert (Hk : bit_length r <= 8 * k).
  { unfold k. pose proof (Z.div_mod (bit_length r + 7) 8 ltac:(lia)).
    pose proof (Z.mod_pos_bound (bit_length r + 7) 8 ltac:(lia)). lia. }
  split; [lia|].
  replace 256 with (2 ^ 8) by reflexivity.
  rewrite <- Z.pow_mul_r by lia.
  eapply Z.lt_le_trans; [exact Hb|].
  apply Z.pow_le_mono_r; lia.
Qed.

Lemma draw_length (low high : Z) (w : readings) :
  low <= high -> len (draw low high w) = num_bytes_for low high.
Proof.
  intros H. unfold draw. apply slice_to_length.
  pose proof (num_bytes_covers low high H).
  split; [lia|apply keystream_covers].
Qed.

Lemma draws_giving_count (low high v : Z) :
  low <= v <= high ->
  draws_giving low high v
  = 256 ^ num_bytes_for low high / (high - low + 1)
    + (if v - low <? 256 ^ num_bytes_for low high mod (high - low + 1)
       then 1 else 0).
Proof.
  intros Hv. destruct (num_bytes_covers low high ltac:(lia)) as [Hk _].
  unfold draws_giving, len.
  rewrite <- (length_map int_from_bytes).
  rewrite <- (filter_map_swap (fun x => low + x mod (high - low + 1) =? v)
                              int_from_bytes).
  rewrite all_draws_values.
  rewrite (filter_ext _ (fun x => x mod (high - low + 1) =? v - low)).
  - pose proof (residue_count (high - low + 1) (v - low)
                  (Z.to_nat (256 ^ Z.of_nat (Z.to_nat (num_bytes_for low high))))
                  ltac:(lia) ltac:(lia)) as C.
    unfold len in C. rewrite C.
    rewrite !Z2Nat.id by (try apply Z.pow_nonneg; lia). reflexivity.
  - intros x.
    destruct (x mod (high - low + 1) =? v - low) eqn:E;
      [apply Z.eqb_eq in E; apply Z.eqb_eq|
       apply Z.eqb_neq in E; apply Z.eqb_neq]; lia.
Qed.

(** C4, as the code has it: with [low <= high] and no reseed due, the call
    draws its bytes once and returns [low] plus the drawn integer modulo
    the range size: raw modulo reduction, with no redraw.  Of the
    [256 ^ num_bytes] draws, a value [v] of the range is given by
    [256 ^ num_bytes / range_size] of them, and by one more when
    [v - low] is below [256 ^ num_bytes mod range_size]. *)
Theorem generate_random_number_raw_modulo (low high : Z) (w : readings)
        (s : Yarrow) :
  reachable s -> reseed_due s (now w) = false -> low <= high ->
  generate_random_number low high w s
  = Returns (reduce low high (draw low high w)) s /\
  len (draw low high w) = num_bytes_for low high /\
  forall v, low <= v <= high ->
    draws_giving low high v
    = 256 ^ num_bytes_for low high / (high - low + 1)
      + (if v - low <? 256 ^ num_bytes_for low high mod (high - low + 1)
         then 1 else 0).
Proof.
  intros R Hd Hlh. split; [|split].
  - rewrite generate_random_number_not_due
      by (assumption || apply (reachable_idle s R)).
    settle (high - low + 1 =? 0). reflexivity.
  - now apply draw_length.
  - intros v Hv. now apply draws_giving_count.
Qed.

Lemma generate_random_number_raw_modulo_witness :
  reachable (init_default 0) /\
  reseed_due (init_default 0) (now early) = false /\ 1 <= 6 /\
  generate_random_number 1 6 early (init_default 0)
  = Returns (reduce 1 6 (draw 1 6 early)) (init_default 0) /\
  len (draw 1 6 early) = num_bytes_for 1 6 /\
  draws_giving 1 6 3
  = 256 ^ num_bytes_for 1 6 / (6 - 1 + 1)
    + (if 3 - 1 <? 256 ^ num_bytes_for 1 6 mod (6 - 1 + 1) then 1 else 0).
Proof.
  assert (R : reachable (init_default 0)) by apply reachable_init.
  assert (D : reseed_due (init_default 0) (now early) = false)
    by reflexivity.
  assert (L : 1 <= 6) by lia.
  split; [exact R|]. split; [exact D|]. split; [exact L|].
  destruct (generate_random_number_raw_modulo 1 6 early (init_default 0)
              R D L) as [E [K C]].
  split; [exact E|]. split; [exact K|]. apply C. lia.
Defined.

(** For the range from 1 to 6 one byte is drawn.  The draw [0xff] lies in
    the partial range from 252 to 255 and is not drawn again: the call
    returns [1 + 255 mod 6].  Of the 256 draws 43 give 1 and 42 give 6. *)
Lemma raw_modulo_is_biased :
  draw 1 6 top_draw = [xff] /\
  generate_random_number 1 6 top_draw (init_default 0)
  = Returns 4 (init_default 0) /\
  draws_giving 1 6 1 = 43 /\
  draws_giving 1 6 6 = 42.
Proof. repeat split; vm_compute; reflexivity. Qed.

(** ** The chi-squared check (C8) *)

Lemma count_cons (x : Z) (b : byte) (data : bytes) :
  count x (b :: data) = (if byte_to_Z b =? x then 1 else 0) + count x data.
Proof.
  unfold count, len. cbn [filter].
  destruct (byte_to_Z b =? x); simpl length; lia.
Qed.

Lemma Zsum_indicator (v : Z) (n : nat) :
  Zsum (map (fun x => if v =? x then 1 else 0) (range n))
  = if (0 <=? v) && (v <? Z.of_nat n) then 1 else 0.
Proof.
  induction n as [|n IH].
  - simpl. destruct (0 <=? v) eqn:A; destruct (v <? 0) eqn:B; try reflexivity.
    apply Z.leb_le in A. apply Z.ltb_lt in B. lia.
  - rewrite range_S, map_app. unfold Zsum in *.
    rewrite fold_right_app. cbn [map fold_right].
    assert (S : forall (l : list Z) (a : Z),
               fold_right Z.add a l = fold_right Z.add 0 l + a).
    { induction l as [|y l IHl]; intros a; simpl; [lia|].
      rewrite IHl. lia. }
    rewrite S, IH.
    destruct (0 <=? v) eqn:A; destruct (v <? Z.of_nat n) eqn:B;
      destruct (v <? Z.of_nat (Datatypes.S n)) eqn:C;
      destruct (v =? Z.of_nat n) eqn:D;
      rewrite ?Z.leb_le, ?Z.leb_gt, ?Z.ltb_lt, ?Z.ltb_ge, ?Z.eqb_eq,
        ?Z.eqb_neq in *; simpl; lia.
Qed.

(** The 256 observed frequencies add up to the length of the sample. *)
Lemma Zsum_count (data : bytes) :
  Zsum (map (fun x => count x data) (range 256)) = len data.
Proof.
  induction data as [|b data IH]; [reflexivity|].
  rewrite (map_ext _ (fun x => (if byte_to_Z b =? x then 1 else 0)
                               + count x data))
    by (intros x; apply count_cons).
  assert (P : forall (f g : Z -> Z) (l : list Z),
             Zsum (map (fun x => f x + g x) l)
             = Zsum (map f l) + Zsum (map g l)).
  { intros f g l. induction l as [|y l IHl]; simpl; [reflexivity|].
    unfold Zsum in *. rewrite IHl. lia. }
  rewrite P, IH, Zsum_indicator.
  pose proof (byte_to_Z_range b) as Hb.
  settle (0 <=? byte_to_Z b). settle (byte_to_Z b <? Z.of_nat 256).
  unfold len. simpl length. simpl andb. lia.
Qed.

(** The float64 arithmetic at work on a sample of three bytes: the
    statistic is [423.66666666666663], the double next below
    [1271 / 3]. *)
Example chi_squared_test_rounds :
  chi_squared_test [x00; x01; x01] = 0x1.a7aaaaaaaaaaap+8%float.
Proof. vm_compute. reflexivity. Qed.

(** C8, as the code has it: [chi_squared_test] has no minimum sample size
    and raises no [InsufficientSampleError].  For every sample, however
    short, it returns the float64 statistic that [chisquare] computes from
    the 256 observed byte frequencies, which add up to [len(data)], and
    the uniform expectation [len(data) / 256] for each of the 256 values;
    every sample of one byte gets [255.0]. *)
Theorem chi_squared_test_any_length :
  (forall data : bytes,
     chi_squared_test data
     = chisquare (map (fun x => count x data) (range 256))
                 (repeat (float_of_int (len data) / 256)%float 256) /\
     length (map (fun x => count x data) (range 256)) = 256%nat /\
     Zsum (map (fun x => count x data) (range 256)) = len data) /\
  (forall b : byte, chi_squared_test [b] = 255%float).
Proof.
  split.
  - intros data. split; [reflexivity|]. split; [reflexivity|].
    apply Zsum_count.
  - intros b. destruct b; vm_compute; reflexivity.
Qed.

(** A sample of one byte, far below 256, gets a statistic: 255. *)
Lemma chi_squared_test_one_byte : chi_squared_test [x00] = 255%float.
Proof. vm_compute. reflexivity. Qed.

(** The empty sample divides zero by an expected frequency of zero. *)
Lemma chi_squared_test_empty :
  PrimFloat.is_nan (chi_squared_test []) = true.
Proof. vm_compute. reflexivity. Qed.

(** * Further properties of the code *)

(** ** Contributions to the pool *)

Lemma reachable_init_default : reachable (init_default 0).
Proof. apply reachable_init. Defined.

(** X1. On an instance whose capacity is at least one byte and whose pool
    is within it, a batch of contributions comes back with a pool that is
    the most recent [max_pool_size] bytes of the old pool followed by the
    contributions, never longer than the capacity, and with nothing else
    changed. *)
Theorem pool_stays_within_capacity (sources : list bytes) (s : Yarrow) :
  reachable s -> 1 <= max_pool_size s ->
  len (entropy_pool s) <= max_pool_size s ->
  exists pool',
    add_entropy_sources sources s = Returns tt (set_entropy_pool pool' s) /\
    pool' = most_recent (max_pool_size s) (entropy_pool s ++ concat sources) /\
    len pool' <= max_pool_size s /\
    (max_pool_size s <= len (entropy_pool s ++ concat sources) ->
     len pool' = max_pool_size s).
Proof.
  intros R Hm Hp. destruct (reachable_idle s R) as [Hl _].
  eexists. split; [now apply add_entropy_sources_most_recent|].
  split; [reflexivity|].
  rewrite most_recent_length by lia. split; lia.
Qed.

Lemma pool_stays_within_capacity_witness :
  reachable holding_ten /\ 1 <= max_pool_size holding_ten /\
  len (entropy_pool holding_ten) <= max_pool_size holding_ten /\
  exists pool',
    add_entropy_sources [[x61]; []; [x62]] holding_ten
    = Returns tt (set_entropy_pool pool' holding_ten) /\
    pool' = most_recent (max_pool_size holding_ten)
                        (entropy_pool holding_ten ++ concat [[x61]; []; [x62]]) /\
    len pool' <= max_pool_size holding_ten /\
    (max_pool_size holding_ten
     <= len (entropy_pool holding_ten ++ concat [[x61]; []; [x62]]) ->
     len pool' = max_pool_size holding_ten).
Proof.
  assert (Hm : 1 <= max_pool_size holding_ten) by (cbn; lia).
  assert (Hp : len (entropy_pool holding_ten) <= max_pool_size holding_ten)
    by (cbn; lia).
  split; [exact reachable_holding_ten|]. split; [exact Hm|].
  split; [exact Hp|].
  exact (pool_stays_within_capacity [[x61]; []; [x62]] holding_ten
           reachable_holding_ten Hm Hp).
Defined.

Lemma pool_after_zero_capacity (pool data : bytes) :
  pool_after 0 pool data = pool ++ data.
Proof.
  unfold pool_after. destruct data as [|b data].
  - now rewrite app_nil_r.
  - destruct (len (pool ++ b :: data) >? 0); reflexivity.
Qed.

(** X2. With a capacity of zero nothing is ever evicted: a batch of
    contributions leaves the old pool followed by all of them. *)
Theorem zero_capacity_keeps_everything (sources : list bytes) (s : Yarrow) :
  reachable s -> max_pool_size s = 0 ->
  add_entropy_sources sources s
  = Returns tt (set_entropy_pool (entropy_pool s ++ concat sources) s).
Proof.
  intros R Hm. destruct (reachable_idle s R) as [Hl _]. clear R.
  revert s Hl Hm. induction sources as [|d rest IH]; intros s Hl Hm.
  - simpl. rewrite app_nil_r, set_entropy_pool_same. reflexivity.
  - simpl. unfold bind. rewrite add_entropy_free by assumption.
    rewrite Hm, pool_after_zero_capacity.
    rewrite IH by assumption.
    cbn [entropy_pool set_entropy_pool]. now rewrite app_assoc.
Qed.

Lemma zero_capacity_keeps_everything_witness :
  reachable (init 10000 0 0) /\ max_pool_size (init 10000 0 0) = 0 /\
  add_entropy_sources [[x61]; [x62; x63]] (init 10000 0 0)
  = Returns tt (set_entropy_pool
                  (entropy_pool (init 10000 0 0) ++ concat [[x61]; [x62; x63]])
                  (init 10000 0 0)).
Proof.
  assert (R : reachable (init 10000 0 0)) by apply reachable_init.
  split; [exact R|]. split; [reflexivity|].
  exact (zero_capacity_keeps_everything [[x61]; [x62; x63]] (init 10000 0 0)
           R eq_refl).
Defined.

(** X3. With a capacity of at least one byte and a pool within it, giving
    the contributions one by one leaves the same instance as giving them
    end to end in one [add_entropy]. *)
Theorem batch_is_one_contribution (sources : list bytes) (s : Yarrow) :
  reachable s -> 1 <= max_pool_size s ->
  len (entropy_pool s) <= max_pool_size s ->
  add_entropy_sources sources s = add_entropy (concat sources) s.
Proof.
  intros R Hm Hp. destruct (reachable_idle s R) as [Hl _].
  rewrite add_entropy_sources_most_recent, add_entropy_free by assumption.
  now rewrite pool_after_most_recent.
Qed.

Lemma batch_is_one_contribution_witness :
  reachable holding_ten /\
  add_entropy_sources [[x61]; []; [x62]] holding_ten
  = add_entropy (concat [[x61]; []; [x62]]) holding_ten.
Proof.
  split; [exact reachable_holding_ten|].
  apply (batch_is_one_contribution [[x61]; []; [x62]] holding_ten
           reachable_holding_ten); cbn; lia.
Defined.

(** X4. A contribution that fits the capacity is kept whole: it ends the
    pool that [add_entropy] leaves. *)
Theorem newest_contribution_kept (data : bytes) (s : Yarrow) :
  reachable s -> data <> [] -> len data <= max_pool_size s ->
  exists front,
    add_entropy data s = Returns tt (set_entropy_pool (front ++ data) s) /\
    len (front ++ data) <= max_pool_size s.
Proof.
  intros R Hd Hf. destruct (reachable_idle s R) as [Hl _].
  assert (Hm : 1 <= max_pool_size s).
  { destruct data; [congruence|]. unfold len in Hf. simpl in Hf. lia. }
  rewrite add_entropy_free by assumption.
  rewrite pool_after_nonempty by assumption.
  unfold most_recent. rewrite length_app.
  set (k := (length (entropy_pool s) + length data
             - Z.to_nat (max_pool_size s))%nat).
  assert (Hk : (k <= length (entropy_pool s))%nat)
    by (unfold k, len in *; lia).
  exists (skipn k (entropy_pool s)).
  rewrite skipn_app.
  replace (k - length (entropy_pool s))%nat with 0%nat by lia.
  split; [reflexivity|].
  unfold len in *. rewrite length_app, length_skipn. simpl skipn. lia.
Qed.

Lemma newest_contribution_kept_witness :
  reachable holding_ten /\ [x61; x62] <> [] /\
  len [x61; x62] <= max_pool_size holding_ten /\
  exists front,
    add_entropy [x61; x62] holding_ten
    = Returns tt (set_entropy_pool (front ++ [x61; x62]) holding_ten) /\
    len (front ++ [x61; x62]) <= max_pool_size holding_ten.
Proof.
  assert (Hd : [x61; x62] <> []) by discriminate.
  assert (Hf : len [x61; x62] <= max_pool_size holding_ten) by (cbn; lia).
  split; [exact reachable_holding_ten|]. split; [exact Hd|].
  split; [exact Hf|].
  exact (newest_contribution_kept [x61; x62] holding_ten
           reachable_holding_ten Hd Hf).
Defined.

(** ** The seed, the timestamp and the calls that leave them alone *)

(** X5. [generate_seed] on a reachable instance comes back with a seed of
    32 bytes, the digest of the pool; the pool, the configuration and the
    timestamp are as before, and a second call changes nothing more. *)
Theorem generate_seed_digest_of_pool (s : Yarrow) :
  reachable s ->
  exists s',
    generate_seed s = Returns tt s' /\
    seed s' = sha256 (entropy_pool s) /\ len (seed s') = 32 /\
    entropy_pool s' = entropy_pool s /\
    reseed_interval s' = reseed_interval s /\
    max_pool_size s' = max_pool_size s /\
    last_reseed_time s' = last_reseed_time s /\
    generate_seed s' = Returns tt s'.
Proof.
  intros R. destruct (reachable_idle s R) as [Hl _].
  eexists. split; [now apply generate_seed_free|].
  cbn [seed set_seed entropy_pool reseed_interval max_pool_size
       last_reseed_time].
  split; [reflexivity|]. split.
  { unfold len. now rewrite sha256_length. }
  repeat (split; [reflexivity|]).
  now rewrite generate_seed_free.
Qed.

Lemma generate_seed_digest_of_pool_witness :
  reachable holding_ten /\
  exists s',
    generate_seed holding_ten = Returns tt s' /\
    seed s' = sha256 (entropy_pool holding_ten) /\ len (seed s') = 32 /\
    entropy_pool s' = entropy_pool holding_ten /\
    reseed_interval s' = reseed_interval holding_ten /\
    max_pool_size s' = max_pool_size holding_ten /\
    last_reseed_time s' = last_reseed_time holding_ten /\
    generate_seed s' = Returns tt s'.
Proof.
  split; [exact reachable_holding_ten|].
  exact (generate_seed_digest_of_pool holding_ten reachable_holding_ten).
Defined.

Lemma observers_return_same (c : call) (s s' : Yarrow) :
  lock s = false ->
  match c with
  | Reseed _ _ | GenerateRandomBytes _ _ | GenerateRandomNumber _ _ _ => True
  | _ => False
  end ->
  exec c s = Some s' -> s' = s.
Proof.
  intros Hl Hc E. destruct c; try contradiction; simpl in E.
  - destruct (reseed_due s now0) eqn:D.
    + rewrite reseed_when_due in E by assumption. discriminate.
    + rewrite reseed_not_due in E by assumption. now inversion E.
  - destruct (generate_random_bytes_cases w n s Hl) as [B|[out B]];
      rewrite B in E; [discriminate|now inversion E].
  - unfold generate_random_number, bind in E.
    destruct (generate_random_bytes_cases
                w ((bit_length (high - low + 1) + 7) / 8) s Hl)
      as [B|[out B]]; rewrite B in E; [discriminate|].
    destruct (high - low + 1 =? 0); now inversion E.
Qed.

(** X6. [reseed], [generate_random_bytes] and [generate_random_number]
    never change the instance: on a reachable instance each of them either
    blocks or comes back, by a return or by [ZeroDivisionError], with every
    field as it was.  No reseed started by them ever completes. *)
Theorem requests_leave_instance_unchanged
        (t t' low high n : Z) (w : readings) (s : Yarrow) :
  reachable s ->
  (reseed t t' s = Blocks \/ reseed t t' s = Returns tt s) /\
  (generate_random_bytes w n s = Blocks \/
   exists out, generate_random_bytes w n s = Returns out s) /\
  (generate_random_number low high w s = Blocks \/
   generate_random_number low high w s = Raises ZeroDivisionError s \/
   exists v, generate_random_number low high w s = Returns v s).
Proof.
  intros R. destruct (reachable_idle s R) as [Hl _].
  split; [|split].
  - destruct (reseed_due s t) eqn:D.
    + left. now apply reseed_when_due.
    + right. now apply reseed_not_due.
  - now apply generate_random_bytes_cases.
  - destruct (reseed_due s (now w)) eqn:D.
    + left. now apply generate_random_number_due.
    + right. rewrite generate_random_number_not_due by assumption.
      destruct (high - low + 1 =? 0); [left; reflexivity|right].
      eexists. reflexivity.
Qed.

Lemma requests_leave_instance_unchanged_witness :
  reachable seeded /\
  (reseed 0 0 seeded = Blocks \/ reseed 0 0 seeded = Returns tt seeded) /\
  (generate_random_bytes early 5 seeded = Blocks \/
   exists out, generate_random_bytes early 5 seeded = Returns out seeded) /\
  (generate_random_number 1 6 early seeded = Blocks \/
   generate_random_number 1 6 early seeded
   = Raises ZeroDivisionError seeded \/
   exists v, generate_random_number 1 6 early seeded = Returns v seeded).
Proof.
  split; [exact reachable_seeded|].
  exact (requests_leave_instance_unchanged 0 0 1 6 5 early seeded
           reachable_seeded).
Defined.

Lemma add_entropy_sources_only_pool (sources : list bytes) (s : Yarrow) :
  lock s = false ->
  exists p, add_entropy_sources sources s = Returns tt (set_entropy_pool p s).
Proof.
  revert s. induction sources as [|d rest IH]; intros s Hl; simpl.
  - exists (entropy_pool s). now rewrite set_entropy_pool_same.
  - unfold bind. rewrite add_entropy_free by assumption.
    destruct (IH (set_entropy_pool
                    (pool_after (max_pool_size s) (entropy_pool s) d) s) Hl)
      as [p E].
    exists p. rewrite E. reflexivity.
Qed.

(** What one call that comes back can change. *)
Lemma exec_fields (c : call) (s s' : Yarrow) :
  idle s -> exec c s = Some s' ->
  last_reseed_time s' = last_reseed_time s /\
  (is_generate_seed c = false -> seed s' = seed s) /\
  (is_configure c = false -> reseed_interval s' = reseed_interval s) /\
  len (seed s) <= len (seed s').
Proof.
  intros [Hl Hs] E. destruct c; simpl in E.
  - rewrite add_entropy_free in E by assumption. inversion E; subst.
    cbn. repeat split; lia.
  - destruct (add_entropy_sources_only_pool sources s Hl) as [p Ep].
    rewrite Ep in E. inversion E; subst. cbn. repeat split; lia.
  - unfold add_system_entropy, bind in E.
    rewrite add_entropy_free in E by assumption.
    rewrite add_entropy_free in E by assumption.
    inversion E; subst. cbn. repeat split; lia.
  - unfold add_user_entropy in E.
    rewrite add_entropy_free in E by assumption. inversion E; subst.
    cbn. repeat split; lia.
  - rewrite generate_seed_free in E by assumption. inversion E; subst.
    cbn [seed set_seed last_reseed_time reseed_interval is_generate_seed].
    repeat split; try discriminate.
    unfold len. rewrite sha256_length.
    destruct Hs as [-> | ->]; simpl; lia.
  - apply (observers_return_same (Reseed now0 stamp0) s s' Hl I) in E.
    subst. repeat split; lia.
  - apply (observers_return_same (GenerateRandomBytes w n) s s' Hl I) in E.
    subst. repeat split; lia.
  - apply (observers_return_same (GenerateRandomNumber low high w) s s' Hl I)
      in E.
    subst. repeat split; lia.
  - rewrite configure_free in E by assumption. inversion E; subst.
    cbn. repeat split; try discriminate; lia.
Qed.

Lemma run_fields (cs : list call) (s s' : Yarrow) :
  idle s -> run cs s = Some s' ->
  idle s' /\
  last_reseed_time s' = last_reseed_time s /\
  (forallb (fun c => negb (is_generate_seed c)) cs = true ->
   seed s' = seed s) /\
  (forallb (fun c => negb (is_configure c)) cs = true ->
   reseed_interval s' = reseed_interval s) /\
  len (seed s) <= len (seed s').
Proof.
  revert s. induction cs as [|c cs IH]; intros s H E; simpl in E.
  - inversion E; subst. repeat split; try apply H; lia.
  - destruct (exec c s) as [s1|] eqn:E1; [|discriminate].
    pose proof (exec_idle c s s1 H E1) as H1.
    destruct (exec_fields c s s1 H E1) as [T1 [S1 [C1 L1]]].
    destruct (IH s1 H1 E) as [H' [T [S [C L]]]].
    split; [exact H'|]. split; [congruence|].
    split; [|split; [|lia]].
    + intros F. simpl in F. apply andb_true_iff in F. destruct F as [F1 F2].
      apply negb_true_iff in F1. rewrite (S F2). now apply S1.
    + intros F. simpl in F. apply andb_true_iff in F. destruct F as [F1 F2].
      apply negb_true_iff in F1. rewrite (C F2). now apply C1.
Qed.

(** X7. Whatever is called on a reachable instance, [last_reseed_time]
    stays what it was; and the seed stays what it was as long as
    [generate_seed] is not called directly. *)
Theorem timestamp_and_seed_stay (cs : list call) (s s' : Yarrow) :
  reachable s -> run cs s = Some s' ->
  last_reseed_time s' = last_reseed_time s /\
  (forallb (fun c => negb (is_generate_seed c)) cs = true ->
   seed s' = seed s).
Proof.
  intros R E.
  destruct (run_fields cs s s' (reachable_idle s R) E) as [_ [T [S _]]].
  split; assumption.
Qed.

Lemma timestamp_and_seed_stay_witness :
  reachable (init_default 0) /\
  (exists s', run a_day (init_default 0) = Some s' /\
              last_reseed_time s' = 0 /\ seed s' = []).
Proof.
  split; [exact reachable_init_default|].
  destruct (run a_day (init_default 0)) as [s'|] eqn:E;
    [|vm_compute in E; discriminate].
  exists s'. split; [reflexivity|].
  destruct (timestamp_and_seed_stay a_day (init_default 0) s'
              reachable_init_default E) as [T S].
  split; [exact T|exact (S eq_refl)].
Defined.

(** X8. Once the reseed test passes at some time it passes at every later
    time, whatever is called in between short of [configure]: from then on
    every generation request blocks. *)
Theorem due_stays_due (cs : list call) (s s' : Yarrow) (t : Z) :
  reachable s ->
  forallb (fun c => negb (is_configure c)) cs = true ->
  run cs s = Some s' ->
  reseed_due s t = true ->
  forall (w : readings) (n : Z),
    t <= now w -> generate_random_bytes w n s' = Blocks.
Proof.
  intros R F E D w n Ht.
  destruct (run_fields cs s s' (reachable_idle s R) E) as [_ [T [_ [C L]]]].
  apply generate_random_bytes_due. apply reseed_due_spec.
  apply reseed_due_spec in D. rewrite T, (C F). lia.
Qed.

Lemma due_stays_due_witness :
  reachable (init_default 0) /\
  (exists s', run [AddEntropy [x61]; GenerateSeed] (init_default 0) = Some s' /\
              reseed_due (init_default 0) 10000 = true /\
              generate_random_bytes (Readings 20000 20000 (repeat x00 32)) 1 s'
              = Blocks).
Proof.
  split; [exact reachable_init_default|].
  destruct (run [AddEntropy [x61]; GenerateSeed] (init_default 0))
    as [s'|] eqn:E; [|vm_compute in E; discriminate].
  exists s'. split; [reflexivity|]. split; [reflexivity|].
  apply (due_stays_due [AddEntropy [x61]; GenerateSeed] (init_default 0) s'
           10000 reachable_init_default eq_refl E eq_refl).
  simpl. lia.
Defined.

(** X9. When [reseed_interval] is not above the length of the seed, every
    generation request blocks at once, whatever the clock says: so does a
    new instance built with [reseed_interval <= 0], and an instance with
    [reseed_interval <= 32] after a call of [generate_seed]. *)
Theorem short_interval_blocks (w : readings) (n : Z) (s : Yarrow) :
  reachable s -> reseed_interval s <= len (seed s) ->
  generate_random_bytes w n s = Blocks /\
  forall low high, generate_random_number low high w s = Blocks.
Proof.
  intros R H.
  assert (D : reseed_due s (now w) = true) by (apply reseed_due_spec; lia).
  split.
  - now apply generate_random_bytes_due.
  - intros low high. now apply generate_random_number_due.
Qed.

Lemma short_interval_blocks_witness :
  reachable (init 0 4096 0) /\
  reseed_interval (init 0 4096 0) <= len (seed (init 0 4096 0)) /\
  generate_random_bytes early 1 (init 0 4096 0) = Blocks /\
  forall low high, generate_random_number low high early (init 0 4096 0)
                   = Blocks.
Proof.
  assert (R : reachable (init 0 4096 0)) by apply reachable_init.
  assert (H : reseed_interval (init 0 4096 0) <= len (seed (init 0 4096 0)))
    by (cbn; lia).
  split; [exact R|]. split; [exact H|].
  exact (short_interval_blocks early 1 (init 0 4096 0) R H).
Defined.

(** ** Reconfiguration *)

(** X10. [configure] changes the two thresholds and nothing else: each
    field gets the value supplied, or keeps its own for [None], and the
    pool, the seed and the timestamp are as before.  A second [configure]
    overrides the first field by field: the two calls in a row leave what
    one call with the later of the supplied values leaves. *)
Theorem configure_twice (i1 m1 i2 m2 : option Z) (s : Yarrow) :
  reachable s ->
  configure i1 m1 s
  = Returns tt
      (mkYarrow (entropy_pool s) (seed s)
                (supplied_or i1 (reseed_interval s))
                (supplied_or m1 (max_pool_size s))
                (last_reseed_time s) (lock s)) /\
  (configure i1 m1 ;;; configure i2 m2) s
  = Returns tt
      (mkYarrow (entropy_pool s) (seed s)
                (supplied_or i2 (supplied_or i1 (reseed_interval s)))
                (supplied_or m2 (supplied_or m1 (max_pool_size s)))
                (last_reseed_time s) (lock s)) /\
  (configure i1 m1 ;;; configure i2 m2) s
  = configure (match i2 with Some _ => i2 | None => i1 end)
              (match m2 with Some _ => m2 | None => m1 end) s.
Proof.
  intros R. destruct (reachable_idle s R) as [Hl _].
  unfold bind.
  rewrite (configure_free i1 m1), (configure_free _ _ s) by assumption.
  rewrite configure_free by reflexivity.
  cbn [entropy_pool seed reseed_interval max_pool_size last_reseed_time].
  rewrite Hl. unfold supplied_or.
  repeat split; destruct i1, i2, m1, m2; reflexivity.
Qed.

Lemma configure_twice_witness :
  reachable holding_ten /\
  configure None (Some 7) holding_ten
  = Returns tt (mkYarrow ten_bytes [] 10000 7 0 false) /\
  (configure (Some 5) (Some 7) ;;; configure None (Some 2)) holding_ten
  = Returns tt (mkYarrow ten_bytes [] 5 2 0 false) /\
  (configure (Some 5) (Some 7) ;;; configure None (Some 2)) holding_ten
  = configure (Some 5) (Some 2) holding_ten.
Proof.
  split; [exact reachable_holding_ten|].
  split; [exact (proj1 (configure_twice None (Some 7) None None holding_ten
                          reachable_holding_ten))|].
  exact (proj2 (configure_twice (Some 5) (Some 7) None (Some 2) holding_ten
                  reachable_holding_ten)).
Defined.

(** X11. On an instance that no call is using, a [configure] that sets
    [reseed_interval] above 32 and above the time since
    [last_reseed_time] makes the request for [n >= 0] bytes that follows
    return [n] bytes, also at a time at which the request would block
    under the old interval.  While a call holds the lock, as a blocked
    request does for ever, [configure] blocks as well. *)
Theorem configure_then_request_returns (i n : Z) (m : option Z)
        (w : readings) (s : Yarrow) :
  reachable s -> 32 < i -> now w - last_reseed_time s < i -> 0 <= n ->
  (exists s' out,
     configure (Some i) m s = Returns tt s' /\
     generate_random_bytes w n s' = Returns out s' /\ len out = n) /\
  configure (Some i) m (set_lock true s) = Blocks.
Proof.
  intros R Hi Ht Hn. destruct (reachable_idle s R) as [Hl Hs].
  split; [|now apply with_lock_held].
  set (s' := mkYarrow (entropy_pool s) (seed s) i
               (match m with Some m' => m' | None => max_pool_size s end)
               (last_reseed_time s) false).
  assert (D : reseed_due s' (now w) = false).
  { apply not_true_iff_false. rewrite reseed_due_spec.
    cbn [s' seed reseed_interval last_reseed_time].
    assert (len (seed s) <= 32)
      by (unfold len; destruct Hs as [-> | ->]; simpl; lia).
    lia. }
  assert (L : lock s' = false) by reflexivity.
  destruct (generate_random_bytes_returns_length w n s' L D Hn)
    as [out [E Ho]].
  exists s', out. split; [now apply configure_free|]. split; assumption.
Qed.

Lemma configure_then_request_returns_witness :
  reachable (init_default 0) /\
  generate_random_bytes late 1 (init_default 0) = Blocks /\
  (exists s' out,
     configure (Some 20000) None (init_default 0) = Returns tt s' /\
     generate_random_bytes late 1 s' = Returns out s' /\ len out = 1) /\
  configure (Some 20000) None (set_lock true (init_default 0)) = Blocks.
Proof.
  split; [exact reachable_init_default|]. split; [reflexivity|].
  apply (configure_then_request_returns 20000 1 None late (init_default 0)
           reachable_init_default); cbn; lia.
Defined.

(** ** The bytes of a generation request *)

(** X12. When no reseed is due a request for [n] bytes returns exactly [n]
    bytes for [n >= 0] and the empty byte string for [n < 0], and leaves the
    instance as it was. *)
Theorem request_returns_n_bytes (w : readings) (n : Z) (s : Yarrow) :
  reachable s -> reseed_due s (now w) = false ->
  exists out,
    generate_random_bytes w n s = Returns out s /\ len out = Z.max 0 n /\
    (n <= 0 -> out = []).
Proof.
  intros R D. destruct (reachable_idle s R) as [Hl _].
  rewrite generate_random_bytes_not_due by assumption.
  eexists. split; [reflexivity|].
  destruct (Z_le_gt_dec n 0) as [Hn|Hn].
  - rewrite keystream_step. change (len (@nil byte)) with 0.
    settle (0 <? n).
    assert (E0 : slice_to n (@nil byte) = []).
    { unfold slice_to. destruct (n <? 0); apply firstn_nil. }
    rewrite E0. split; [unfold len; simpl; lia|reflexivity].
  - split; [|lia]. rewrite slice_to_length; [lia|].
    split; [lia|apply keystream_covers].
Qed.

Lemma request_returns_n_bytes_witness :
  reachable seeded /\ reseed_due seeded (now early) = false /\
  exists out,
    generate_random_bytes early 40 seeded = Returns out seeded /\
    len out = Z.max 0 40 /\ (40 <= 0 -> out = []).
Proof.
  assert (D : reseed_due seeded (now early) = false) by reflexivity.
  split; [exact reachable_seeded|]. split; [exact D|].
  exact (request_returns_n_bytes early 40 seeded reachable_seeded D).
Defined.

Lemma chain_length (k : nat) (prng : bytes) :
  length (chain k prng) = (32 * k)%nat.
Proof.
  revert prng. induction k as [|k IH]; intros prng; [reflexivity|].
  cbn [chain]. rewrite length_app, sha256_length, IH. lia.
Qed.

Lemma chain_add (a b : nat) (prng : bytes) :
  chain (a + b) prng = chain a prng ++ chain b (Nat.iter a sha256 prng).
Proof.
  revert prng. induction a as [|a IH]; intros prng; [reflexivity|].
  cbn [chain Nat.add]. rewrite IH, <- app_assoc. do 3 f_equal.
  clear IH. induction a as [|a IHa]; [reflexivity|].
  simpl in *. now rewrite IHa.
Qed.

Lemma digests_for_step (d : Z) :
  0 < d -> digests_for d = S (digests_for (d - 32)).
Proof.
  intros Hd. unfold digests_for.
  replace (d + 31) with ((d - 32 + 31) + 1 * 32) by lia.
  rewrite Z.div_add by lia.
  assert (0 <= (d - 32 + 31) / 32) by (apply Z.div_pos; lia).
  lia.
Qed.

Lemma digests_for_none (d : Z) : d <= 0 -> digests_for d = 0%nat.
Proof.
  intros Hd. unfold digests_for.
  assert ((d + 31) / 32 <= 0).
  { apply Z.lt_succ_r. apply Z.div_lt_upper_bound; lia. }
  lia.
Qed.

(** The loop appends to its buffer the digests of the chain, as many as the
    missing bytes need. *)
Lemma keystream_chain (n : Z) (prng acc : bytes) :
  keystream n prng acc = acc ++ chain (digests_for (n - len acc)) prng.
Proof.
  funelim (keystream n prng acc).
  - rewrite H. rewrite (digests_for_step (n - len random_bytes)) by lia.
    replace (n - len (random_bytes ++ sha256 prng))
      with (n - len random_bytes - 32)
      by (unfold len; rewrite length_app, sha256_length; lia).
    cbn [chain]. now rewrite <- app_assoc.
  - rewrite digests_for_none by lia. simpl. now rewrite app_nil_r.
Qed.

Lemma request_is_chain (w : readings) (n : Z) (s : Yarrow) :
  lock s = false -> reseed_due s (now w) = false -> 0 <= n ->
  generate_random_bytes w n s
  = Returns (firstn (Z.to_nat n) (chain (digests_for n) (urandom w))) s.
Proof.
  intros Hl D Hn. rewrite generate_random_bytes_not_due by assumption.
  rewrite keystream_chain. change (len (@nil byte)) with 0.
  rewrite Z.sub_0_r. unfold slice_to. settle (n <? 0). reflexivity.
Qed.

(** X13. When no reseed is due the bytes returned for [n >= 0] are the
    first [n] bytes of the hash chain that starts at the bytes read from
    [os.urandom]: [sha256(r)], then [sha256(sha256(r))], and so on.  The
    bytes read are hashed once before any of them is given out. *)
Theorem output_is_hash_chain (w : readings) (n : Z) (s : Yarrow) :
  reachable s -> reseed_due s (now w) = false -> 0 <= n ->
  generate_random_bytes w n s
  = Returns (firstn (Z.to_nat n) (chain (digests_for n) (urandom w))) s /\
  (n <= 32 ->
   generate_random_bytes w n s
   = Returns (firstn (Z.to_nat n) (sha256 (urandom w))) s).
Proof.
  intros R D Hn. destruct (reachable_idle s R) as [Hl _].
  split; [now apply request_is_chain|].
  intros H32. rewrite request_is_chain by assumption.
  destruct (Z.eq_dec n 0) as [->|Hz]; [reflexivity|].
  replace (digests_for n) with 1%nat.
  - cbn [chain]. now rewrite app_nil_r.
  - rewrite digests_for_step, digests_for_none by lia. reflexivity.
Qed.

Lemma output_is_hash_chain_witness :
  reachable seeded /\ reseed_due seeded (now early) = false /\ 0 <= 40 /\
  generate_random_bytes early 40 seeded
  = Returns (firstn (Z.to_nat 40) (chain (digests_for 40) (urandom early)))
            seeded.
Proof.
  assert (D : reseed_due seeded (now early) = false) by reflexivity.
  assert (H : 0 <= 40) by lia.
  split; [exact reachable_seeded|]. split; [exact D|]. split; [exact H|].
  exact (proj1 (output_is_hash_chain early 40 seeded reachable_seeded D H)).
Defined.

(** X14. With the same bytes read from [os.urandom], a shorter request
    returns the beginning of what a longer request returns. *)
Theorem shorter_request_is_prefix (w : readings) (n m : Z) (s : Yarrow) :
  reachable s -> reseed_due s (now w) = false -> 0 <= n <= m ->
  exists out_n out_m,
    generate_random_bytes w n s = Returns out_n s /\
    generate_random_bytes w m s = Returns out_m s /\
    out_n = firstn (Z.to_nat n) out_m.
Proof.
  intros R D Hnm. destruct (reachable_idle s R) as [Hl _].
  do 2 eexists.
  split; [apply request_is_chain; (assumption || lia)|].
  split; [apply request_is_chain; (assumption || lia)|].
  rewrite firstn_firstn.
  replace (Nat.min (Z.to_nat n) (Z.to_nat m)) with (Z.to_nat n) by lia.
  assert (Hk : (digests_for n <= digests_for m)%nat).
  { unfold digests_for. apply Z2Nat.inj_le;
      try (apply Z.div_pos; lia). apply Z.div_le_mono; lia. }
  replace (digests_for m)
    with (digests_for n + (digests_for m - digests_for n))%nat by lia.
  rewrite chain_add, firstn_app, chain_length.
  assert (Hc : (Z.to_nat n <= 32 * digests_for n)%nat).
  { unfold digests_for.
    pose proof (Z.div_mod (n + 31) 32 ltac:(lia)).
    pose proof (Z.mod_pos_bound (n + 31) 32 ltac:(lia)).
    assert (0 <= (n + 31) / 32) by (apply Z.div_pos; lia). lia. }
  replace (Z.to_nat n - 32 * digests_for n)%nat with 0%nat by lia.
  simpl firstn at 3. now rewrite app_nil_r.
Qed.

Lemma shorter_request_is_prefix_witness :
  reachable seeded /\ reseed_due seeded (now early) = false /\
  exists out_n out_m,
    generate_random_bytes early 5 seeded = Returns out_n seeded /\
    generate_random_bytes early 40 seeded = Returns out_m seeded /\
    out_n = firstn (Z.to_nat 5) out_m.
Proof.
  assert (D : reseed_due seeded (now early) = false) by reflexivity.
  split; [exact reachable_seeded|]. split; [exact D|].
  apply (shorter_request_is_prefix early 5 40 seeded reachable_seeded D).
  lia.
Defined.

(** ** Ranged numbers, continued *)

(** X15. When no reseed is due, a request for a number with [low <= high]
    returns a value between the bounds, both included, and leaves the
    instance as it was; with [low = high] it returns [low]. *)
Theorem number_within_bounds (low high : Z) (w : readings) (s : Yarrow) :
  reachable s -> reseed_due s (now w) = false -> low <= high ->
  exists v, generate_random_number low high w s = Returns v s /\
            low <= v <= high /\ (low = high -> v = low).
Proof.
  intros R D H.
  destruct (generate_random_number_in_range low high w s R D H)
    as [v [E B]].
  exists v. split; [exact E|]. split; [exact B|lia].
Qed.

Lemma number_within_bounds_witness :
  reachable seeded /\ reseed_due seeded (now early) = false /\ 1 <= 6 /\
  exists v, generate_random_number 1 6 early seeded = Returns v seeded /\
            1 <= v <= 6 /\ (1 = 6 -> v = 1).
Proof.
  assert (D : reseed_due seeded (now early) = false) by reflexivity.
  assert (H : 1 <= 6) by lia.
  split; [exact reachable_seeded|]. split; [exact D|]. split; [exact H|].
  exact (number_within_bounds 1 6 early seeded reachable_seeded D H).
Defined.

(** ** The producers of contributions *)

(** X17. [add_system_entropy] puts the bytes of [os.urandom] into the pool
    and then the text of the clock, in that order; [add_user_entropy] puts
    the encoded text.  With a capacity of at least one byte and a pool
    within it each leaves the most recent [max_pool_size] bytes. *)
Theorem producers_append_in_order (rnd clock_text encoded : bytes)
        (s : Yarrow) :
  reachable s -> 1 <= max_pool_size s ->
  len (entropy_pool s) <= max_pool_size s ->
  add_system_entropy rnd clock_text s
  = Returns tt (set_entropy_pool
                  (most_recent (max_pool_size s)
                               (entropy_pool s ++ rnd ++ clock_text)) s) /\
  add_user_entropy encoded s
  = Returns tt (set_entropy_pool
                  (most_recent (max_pool_size s)
                               (entropy_pool s ++ encoded)) s).
Proof.
  intros R Hm Hp. destruct (reachable_idle s R) as [Hl _]. split.
  - unfold add_system_entropy, bind.
    rewrite add_entropy_free by assumption.
    rewrite pool_after_most_recent by assumption.
    rewrite add_entropy_free by assumption.
    cbn [max_pool_size entropy_pool set_entropy_pool].
    rewrite pool_after_most_recent
      by (try rewrite most_recent_length; lia).
    now rewrite most_recent_app, <- app_assoc.
  - unfold add_user_entropy. rewrite add_entropy_free by assumption.
    now rewrite pool_after_most_recent.
Qed.

Lemma producers_append_in_order_witness :
  reachable holding_ten /\
  add_system_entropy (repeat x07 32) [x31; x2e; x35] holding_ten
  = Returns tt (set_entropy_pool
                  (most_recent (max_pool_size holding_ten)
                     (entropy_pool holding_ten
                      ++ repeat x07 32 ++ [x31; x2e; x35])) holding_ten) /\
  add_user_entropy [x68; x69] holding_ten
  = Returns tt (set_entropy_pool
                  (most_recent (max_pool_size holding_ten)
                     (entropy_pool holding_ten ++ [x68; x69])) holding_ten).
Proof.
  split; [exact reachable_holding_ten|].
  apply (producers_append_in_order (repeat x07 32) [x31; x2e; x35]
           [x68; x69] holding_ten reachable_holding_ten); cbn; lia.
Defined.

(** ** The script *)

(** X18. The script at the end of the file prints a number below
    [2 ^ 1024] when its generation request is made less than 20000 seconds
    after the instance was built; made later, the request blocks and
    nothing is printed. *)
Theorem example_usage_outcome (t0 : Z) (w : readings) :
  (now w - t0 < 20000 ->
   exists x s', example_usage t0 w = Returns x s' /\ 0 <= x < 2 ^ 1024) /\
  (20000 <= now w - t0 -> example_usage t0 w = Blocks).
Proof.
  unfold example_usage, bind.
  rewrite configure_free by reflexivity.
  set (s' := mkYarrow _ _ _ _ _ _).
  split; intros Ht.
  - assert (D : reseed_due s' (now w) = false).
    { apply not_true_iff_false. rewrite reseed_due_spec.
      unfold s', len; simpl. lia. }
    destruct (generate_random_bytes_returns_length w 128 s' eq_refl D
                ltac:(lia)) as [out [E L]].
    rewrite E. do 2 eexists. split; [reflexivity|].
    pose proof (int_from_bytes_range out) as B. rewrite L in B.
    replace (2 ^ 1024) with (256 ^ 128) by reflexivity. exact B.
  - rewrite generate_random_bytes_due; [reflexivity|].
    apply reseed_due_spec. unfold s'; simpl. lia.
Qed.

Lemma example_usage_outcome_witness :
  now early - 0 < 20000 /\ 20000 <= now (Readings 20000 20000 []) - 0 /\
  (exists x s', example_usage 0 early = Returns x s' /\ 0 <= x < 2 ^ 1024) /\
  example_usage 0 (Readings 20000 20000 []) = Blocks.
Proof.
  assert (H1 : now early - 0 < 20000) by (cbn; lia).
  assert (H2 : 20000 <= now (Readings 20000 20000 []) - 0) by (cbn; lia).
  split; [exact H1|]. split; [exact H2|]. split.
  - exact (proj1 (example_usage_outcome 0 early) H1).
  - exact (proj2 (example_usage_outcome 0 (Readings 20000 20000 [])) H2).
Defined.

(** ** The chi-squared statistic, continued *)

Lemma count_permutation (x : Z) (d1 d2 : bytes) :
  Permutation d1 d2 -> count x d1 = count x d2.
Proof.
  induction 1 as [|b l l' _ IH|a b l|l l' l'' _ IH1 _ IH2].
  - reflexivity.
  - rewrite !count_cons. lia.
  - rewrite !count_cons. lia.
  - congruence.
Qed.

(** X21. The statistic depends on how often each byte value occurs, not on
    where: two samples that are rearrangements of each other get the same
    result. *)
Theorem chi_squared_ignores_order (d1 d2 : bytes) :
  Permutation d1 d2 -> chi_squared_test d1 = chi_squared_test d2.
Proof.
  intros P. unfold chi_squared_test, len.
  rewrite (Permutation_length P).
  rewrite (map_ext _ (fun x => count x d2)); [reflexivity|].
  intros x. now rewrite (count_permutation x d1 d2 P).
Qed.

Lemma chi_squared_ignores_order_witness :
  Permutation [x00; x01; x01] [x01; x00; x01] /\
  chi_squared_test [x00; x01; x01] = chi_squared_test [x01; x00; x01].
Proof.
  assert (P : Permutation [x00; x01; x01] [x01; x00; x01])
    by apply perm_swap.
  split; [exact P|exact (chi_squared_ignores_order _ _ P)].
Defined.

(** ** The width of a draw *)

(** X22. For [low <= high] the number of bytes drawn is the least [k] with
    [range_size < 256 ^ k]: at least one byte, enough bytes to cover the
    range, and never a byte more than that takes. *)
Theorem num_bytes_is_least (low high : Z) :
  low <= high ->
  1 <= num_bytes_for low high /\
  256 ^ (num_bytes_for low high - 1) <= high - low + 1
  < 256 ^ num_bytes_for low high.
Proof.
  intros H. destruct (num_bytes_covers low high H) as [Hk Hr].
  split; [lia|]. split; [|exact Hr].
  unfold num_bytes_for in *.
  set (r := high - low + 1) in *. assert (Hp : 0 < r) by (unfold r; lia).
  assert (Hb : bit_length r = Z.log2 r + 1).
  { unfold bit_length. settle (r =? 0). now rewrite Z.abs_eq by lia. }
  pose proof (Z.log2_spec r Hp) as [Hlo _].
  pose proof (Z.log2_nonneg r) as Hl0.
  set (k := (bit_length r + 7) / 8) in *.
  assert (Hk8 : 8 * (k - 1) <= Z.log2 r).
  { unfold k. pose proof (Z.div_mod (bit_length r + 7) 8 ltac:(lia)).
    pose proof (Z.mod_pos_bound (bit_length r + 7) 8 ltac:(lia)). lia. }
  replace 256 with (2 ^ 8) by reflexivity.
  rewrite <- Z.pow_mul_r by lia.
  eapply Z.le_trans; [|exact Hlo].
  apply Z.pow_le_mono_r; lia.
Qed.

Lemma num_bytes_is_least_witness :
  0 <= 255 /\
  1 <= num_bytes_for 0 255 /\
  256 ^ (num_bytes_for 0 255 - 1) <= 255 - 0 + 1 < 256 ^ num_bytes_for 0 255.
Proof.
  assert (H : 0 <= 255) by lia.
  split; [exact H|exact (num_bytes_is_least 0 255 H)].
Defined.
